(** * Typing duel: the prefix directory and the match engine

    A shallow embedding of [src/core/trie.py] (classes [TrieNode], [Trie])
    and of the game logic of [src/web_game_server.py] (classes [Player],
    [Word], [Game], and the pure part of [load_word_bank]), with the
    properties the specification states about them.

    Conventions of the model.
    - Python [str] is [string]; one character is an [ascii].  The texts the
      model covers are 7-bit: [lower] is Python's [str.lower] on code points
      below 128.
    - Python [int] is [Z]; Python [float] is the IEEE binary64 [float] of
      the kernel, so [w.y += w.speed] and [w.y >= CANVAS_H - 120] are the
      machine operations.
    - A Python [dict] whose iteration order the code relies on
      ([TrieNode.children], [Game.words]) is an insertion-ordered association
      list ([dict_get], [dict_set], [dict_del]); [Game.players] is a
      [gmap]; the Python sets [active_texts] and [used_words] are [gset]s.
    - Objects are mutated in place in the source; here every operation
      returns the state after it.  A trie is a tree (no node is shared by
      two paths), so values model it without aliasing.
    - The random generator and the clock are inputs: an operation that draws
      a number or reads the time takes the drawn value as an argument. *)

From Stdlib Require Import ZArith Ascii String List Bool Lia Floats DecimalString.
From stdpp Require Import base option list strings gmap.

Set Warnings "-register-all".

Local Open Scope string_scope.
Local Open Scope Z_scope.

(** ** Python helpers *)

(** [str.lower] on one 7-bit character. *)
Definition lower_ascii (c : ascii) : ascii :=
  let n := nat_of_ascii c in
  if ((65 <=? n)%nat && (n <=? 90)%nat)%bool then ascii_of_nat (n + 32) else c.

(** [s.lower()] *)
Fixpoint lower (s : string) : string :=
  match s with
  | EmptyString => EmptyString
  | String c s' => String (lower_ascii c) (lower s')
  end.

(** [c in string.ascii_lowercase] for one character. *)
Definition is_ascii_lowercase (c : ascii) : bool :=
  let n := nat_of_ascii c in ((97 <=? n)%nat && (n <=? 122)%nat)%bool.

(** ** Insertion-ordered dictionaries *)

Section Dict.
Context {K V : Type} `{EqDecision K}.

(** [d.get(k)] *)
Fixpoint dict_get (k : K) (d : list (K * V)) : option V :=
  match d with
  | [] => None
  | (k', v) :: d' => if decide (k = k') then Some v else dict_get k d'
  end.

(** [d[k] = v]: an existing key keeps its place, a new key goes last. *)
Fixpoint dict_set (k : K) (v : V) (d : list (K * V)) : list (K * V) :=
  match d with
  | [] => [(k, v)]
  | (k', v') :: d' =>
      if decide (k = k') then (k, v) :: d' else (k', v') :: dict_set k v d'
  end.

(** [del d[k]] / [d.pop(k, None)] *)
Fixpoint dict_del (k : K) (d : list (K * V)) : list (K * V) :=
  match d with
  | [] => []
  | (k', v') :: d' =>
      if decide (k = k') then dict_del k d' else (k', v') :: dict_del k d'
  end.

(** [d.values()] *)
Definition dict_values (d : list (K * V)) : list V := map snd d.

End Dict.

(** ** core/trie.py *)

Module TrieNode.
(** The payload of a terminal node when the inserted value is an object
    with a [.text] attribute (the pygame front end); the web server
    inserts plain strings. *)
Record WordObject := { wo_text : string; wo_position : Z * Z }.

Inductive t := mk {
  children : list (ascii * t);
  is_end_of_word : bool;
  word_text : option string;
  word_object : option WordObject;
  prefix_count : Z }.

(** [TrieNode()] *)
Definition new : t := mk [] false None None 0.
End TrieNode.

Module Trie.
Import TrieNode.

Record t := mk { root : TrieNode.t }.

(** [Trie()] *)
Definition new : t := mk TrieNode.new.

(** The argument of [insert]: a plain string or an object with [.text]. *)
Inductive Any := AStr (s : string) | AObj (o : WordObject).

Definition text_of (a : Any) : string :=
  match a with AStr s => s | AObj o => wo_text o end.

Definition object_of (a : Any) : option WordObject :=
  match a with AStr _ => None | AObj o => Some o end.

(** The loop of [insert] from [node] over the characters [cs] that are
    left, followed by the three assignments on the last node. *)
Fixpoint insert_from (cs : string) (a : Any) (node : TrieNode.t) : TrieNode.t :=
  match cs with
  | EmptyString =>
      TrieNode.mk (children node) true (Some (text_of a)) (object_of a)
                  (prefix_count node)
  | String ch cs' =>
      let child := default TrieNode.new (dict_get ch (children node)) in
      let child := TrieNode.mk (children child) (is_end_of_word child)
                     (word_text child) (word_object child)
                     (prefix_count child + 1) in
      TrieNode.mk (dict_set ch (insert_from cs' a child) (children node))
                  (is_end_of_word node) (word_text node) (word_object node)
                  (prefix_count node)
  end.

Definition insert (a : Any) (tr : t) : t :=
  mk (insert_from (lower (text_of a)) a (root tr)).

(** The test of the reversed loop of [remove]:
    [child.prefix_count <= 0 and not child.is_end_of_word and not
    child.children]. *)
Definition prunable (child : TrieNode.t) : bool :=
  (prefix_count child <=? 0)
  && negb (is_end_of_word child)
  && match children child with [] => true | _ => false end.

(** [remove], from [node] over the characters [cs] that are left.
    [None]: one of the two early [return]s was taken, nothing changes.
    [Some (node', going)]: [node'] is [node] after the call; [going] tells
    whether the reversed loop is still running (no [break] yet) when it
    comes to the pair [(parent of node, ch)]. *)
Fixpoint remove_from (cs : string) (node : TrieNode.t)
  : option (TrieNode.t * bool) :=
  match cs with
  | EmptyString =>
      if is_end_of_word node
      then Some (TrieNode.mk (children node) false None None
                             (prefix_count node), true)
      else None
  | String ch cs' =>
      match dict_get ch (children node) with
      | None => None
      | Some child =>
          match remove_from cs' child with
          | None => None
          | Some (child, false) =>
              Some (TrieNode.mk (dict_set ch child (children node))
                      (is_end_of_word node) (word_text node)
                      (word_object node) (prefix_count node), false)
          | Some (child, true) =>
              let child := TrieNode.mk (children child)
                             (is_end_of_word child) (word_text child)
                             (word_object child) (prefix_count child - 1) in
              if prunable child
              then Some (TrieNode.mk (dict_del ch (children node))
                           (is_end_of_word node) (word_text node)
                           (word_object node) (prefix_count node), true)
              else Some (TrieNode.mk (dict_set ch child (children node))
                           (is_end_of_word node) (word_text node)
                           (word_object node) (prefix_count node), false)
          end
      end
  end.

Definition remove (word : string) (tr : t) : t :=
  match remove_from (lower word) (root tr) with
  | None => tr
  | Some (r, _) => mk r
  end.

(** [_descend] *)
Fixpoint descend_from (cs : string) (node : TrieNode.t) : option TrieNode.t :=
  match cs with
  | EmptyString => Some node
  | String ch cs' =>
      match dict_get ch (children node) with
      | None => None
      | Some child => descend_from cs' child
      end
  end.

Definition _descend (prefix : string) (tr : t) : option TrieNode.t :=
  descend_from (lower prefix) (root tr).

(** [get_prefix_count]: the key looked up is the whole lowered argument,
    and the keys of [children] are single characters. *)
Definition get_prefix_count (first_char : string) (tr : t) : Z :=
  match lower first_char with
  | String ch EmptyString =>
      match dict_get ch (children (root tr)) with
      | Some node => prefix_count node
      | None => 0
      end
  | _ => 0
  end.

(** Is [text] indexed: the node at the end of its path carries the
    terminal mark. *)
Definition is_indexed (text : string) (tr : t) : bool :=
  match _descend text tr with
  | Some node => is_end_of_word node
  | None => false
  end.
(** [_collect]: the payloads below [node], depth first, in the order of
    [children]; a terminal node gives its object when it has one, else its
    text. *)
Fixpoint _collect (node : TrieNode.t) : list Any :=
  match node with
  | TrieNode.mk children is_end wt wo _ =>
      ((if is_end then
          match wo with
          | Some o => [AObj o]
          | None => match wt with Some text => [AStr text] | None => [] end
          end
        else [])
       ++ (fix over (cs : list (ascii * TrieNode.t)) : list Any :=
             match cs with
             | [] => []
             | (_, child) :: cs' => (_collect child ++ over cs')%list
             end) children)%list
  end.

(** [find_words_starting_with] *)
Definition find_words_starting_with (prefix : string) (tr : t) : list Any :=
  match _descend prefix tr with
  | None => []
  | Some node => _collect node
  end.

(** [get_all_prefixes] *)
Definition get_all_prefixes (tr : t) : list (ascii * Z) :=
  map (fun kn => (kn.1, prefix_count kn.2)) (children (root tr)).
End Trie.

(** ** web_game_server.py: configuration *)

Definition CANVAS_W : Z := 1200.
Definition CANVAS_H : Z := 800.
Definition PLAYER_LIVES : Z := 3.
Definition SCORE_PER_CHAR : Z := 5.
Definition WORD_BONUS : Z := 10.
Definition STREAK_BONUS : Z := 4.
Definition MISS_LIFE_PENALTY : Z := 1.
Definition WORD_SPEED_BASE : float := 0x1.6666666666666p+0%float. (* 1.4 *)
Definition WORD_SPEED_RAND : float := 0x1.3333333333333p-1%float. (* 0.6 *)
Definition PLAYER_COLORS : list (Z * Z * Z) := [(255, 120, 120); (120, 120, 255)].

(** [string.ascii_lowercase] *)
Definition ascii_lowercase : string := "abcdefghijklmnopqrstuvwxyz".

(** [a in b] on strings: [a] occurs in [b]. *)
Definition str_in (a b : string) : bool :=
  match String.index 0 a b with Some _ => true | None => false end.

(** [s[1:]] *)
Definition str_tail (s : string) : string :=
  match s with EmptyString => EmptyString | String _ s' => s' end.

(** [s and s[0] == ch] *)
Definition head_is (ch s : string) : bool :=
  match s with
  | EmptyString => false
  | String c _ => bool_decide (String c EmptyString = ch)
  end.

(** [str(n)] for an [int]. *)
Definition str_of_int (n : Z) : string :=
  DecimalString.NilZero.string_of_int (Z.to_int n).

(** [s.isalpha()] on 7-bit text: not empty, letters only. *)
Definition is_letter (c : ascii) : bool :=
  is_ascii_lowercase (lower_ascii c).

Fixpoint all_letters (s : string) : bool :=
  match s with
  | EmptyString => true
  | String c s' => is_letter c && all_letters s'
  end.

Definition isalpha (s : string) : bool :=
  match s with EmptyString => false | _ => all_letters s end.

(** [rng.choice(seq)] with the drawn number [r]; [None] is the
    [IndexError] of an empty sequence. *)
Definition rng_choice {A} (r : nat) (seq : list A) : option A :=
  match seq with
  | [] => None
  | _ => seq !! (r mod length seq)%nat
  end.

(** ** web_game_server.py: models *)

Inductive Status := falling | locked | completed | missed.

#[global] Instance Status_eq_dec : EqDecision Status.
Proof. solve_decision. Defined.

Module Player.
Record t := mk {
  sid : string;
  username : string;
  color : Z * Z * Z;
  score : Z;
  lives : Z;
  streak : Z;
  current_word_id : option string;
  ready : bool }.

(** [Player(sid, username, color)] *)
Definition new (sid username : string) (color : Z * Z * Z) : t :=
  mk sid username color 0 PLAYER_LIVES 0 None false.

Definition set_score (v : Z) (p : t) : t :=
  mk (sid p) (username p) (color p) v (lives p) (streak p)
     (current_word_id p) (ready p).
Definition set_lives (v : Z) (p : t) : t :=
  mk (sid p) (username p) (color p) (score p) v (streak p)
     (current_word_id p) (ready p).
Definition set_streak (v : Z) (p : t) : t :=
  mk (sid p) (username p) (color p) (score p) (lives p) v
     (current_word_id p) (ready p).
Definition set_current_word_id (v : option string) (p : t) : t :=
  mk (sid p) (username p) (color p) (score p) (lives p) (streak p)
     v (ready p).
Definition set_ready (v : bool) (p : t) : t :=
  mk (sid p) (username p) (color p) (score p) (lives p) (streak p)
     (current_word_id p) v.
End Player.

Module Word.
Record t := mk {
  id : string;
  text : string;
  x : float;
  y : float;
  speed : float;
  status : Status;
  owner_sid : option string;
  typed : string;
  remaining : string }.

Definition set_y (v : float) (w : t) : t :=
  mk (id w) (text w) (x w) v (speed w) (status w) (owner_sid w)
     (typed w) (remaining w).
Definition set_status (v : Status) (w : t) : t :=
  mk (id w) (text w) (x w) (y w) (speed w) v (owner_sid w)
     (typed w) (remaining w).
Definition set_owner_sid (v : option string) (w : t) : t :=
  mk (id w) (text w) (x w) (y w) (speed w) (status w) v
     (typed w) (remaining w).
Definition set_typed (v : string) (w : t) : t :=
  mk (id w) (text w) (x w) (y w) (speed w) (status w) (owner_sid w)
     v (remaining w).
Definition set_remaining (v : string) (w : t) : t :=
  mk (id w) (text w) (x w) (y w) (speed w) (status w) (owner_sid w)
     (typed w) v.
(** The dictionary [to_public] returns. *)
Record public := mk_public {
  pub_id : string;
  pub_text : string;
  pub_x : float;
  pub_y : float;
  pub_typed : string;
  pub_remaining : string;
  pub_status : Status;
  claimed_by : option string;
  typing_player : option string;
  player_color : option (Z * Z * Z);
  locked_by_color : option (Z * Z * Z) }.

(** [to_public] *)
Definition to_public (w : t) (players : gmap string Player.t) : public :=
  let col :=
    match owner_sid w with
    | Some sid =>
        if bool_decide (sid = EmptyString) then None
        else Player.color <$> players !! sid
    | None => None
    end in
  mk_public (id w) (text w) (x w) (y w) (typed w) (remaining w) (status w)
    (match status w with completed => owner_sid w | _ => None end)
    (match status w with locked | completed => owner_sid w | _ => None end)
    col col.
End Word.

(** Truth value of an [Optional[str]]: [None] and the empty string are
    false. *)
Definition truthy (o : option string) : bool :=
  match o with
  | None => false
  | Some s => negb (bool_decide (s = EmptyString))
  end.

(** The result of [type_char].  The ["word"] entry is the word itself
    ([to_public] is a view of it), and the ["players"] entry, a view of the
    players of the state returned with it, is left out. *)
Inductive Outcome :=
  | Noop
  | BadKey
  | Progress (w : Word.t)
  | Completed (w : Word.t) (completed_by : string).

(** ** web_game_server.py: load_word_bank *)

Definition DEFAULT_WORDS : list string :=
  ["space"; "typing"; "galaxy"; "planet"; "rocket"; "comet"; "meteor";
   "python"; "socket"; "vector"; "engine"].

(** Python's white space below 128. *)
Definition is_space (c : ascii) : bool :=
  let n := nat_of_ascii c in
  ((9 <=? n)%nat && (n <=? 13)%nat) || ((28 <=? n)%nat && (n <=? 32)%nat).

Fixpoint lstrip (s : string) : string :=
  match s with
  | EmptyString => EmptyString
  | String c s' => if is_space c then lstrip s' else s
  end.

Fixpoint rstrip (s : string) : string :=
  match s with
  | EmptyString => EmptyString
  | String c s' =>
      match rstrip s' with
      | EmptyString => if is_space c then EmptyString else String c EmptyString
      | r => String c r
      end
  end.

(** [s.strip()] *)
Definition strip (s : string) : string := rstrip (lstrip s).

(** The cleaning loop of [load_word_bank], with [seen] and [clean] as they
    stand when the loop reaches the words [ws]. *)
Fixpoint clean_words (ws : list string) (seen : gset string)
    (clean : list string) : list string :=
  match ws with
  | [] => clean
  | w :: ws' =>
      let w := lower (strip w) in
      if bool_decide (w = EmptyString) || negb (isalpha w)
      then clean_words ws' seen clean
      else if bool_decide (w ∈ seen) then clean_words ws' seen clean
      else clean_words ws' ({[w]} ∪ seen) (clean ++ [w])%list
  end.

(** [load_word_bank], after the files are read: [words] is the list taken
    from the first readable file of [WORD_BANK_PATHS] (empty when there is
    none). *)
Definition load_word_bank (words : list string) : list string :=
  let words := match words with [] => DEFAULT_WORDS | _ => words end in
  clean_words words ∅ [].

(** ** web_game_server.py: Game *)

Module Game.
(** The fields of [Game] the game logic reads and writes.  [lock], [rng]
    and [next_spawn_time] belong to the scheduling in [loop]: the
    operations below are the bodies run under the lock, and take what
    [rng] and the clock give as arguments. *)
Record t := mk {
  room_id : string;
  players : gmap string Player.t;
  words : list (string * Word.t);
  words_list : list string;
  trie : Trie.t;
  running : bool;
  active_texts : gset string;
  used_words : gset string }.

Definition set_players (v : gmap string Player.t) (g : t) : t :=
  mk (room_id g) v (words g) (words_list g) (trie g) (running g)
     (active_texts g) (used_words g).
Definition set_words (v : list (string * Word.t)) (g : t) : t :=
  mk (room_id g) (players g) v (words_list g) (trie g) (running g)
     (active_texts g) (used_words g).
Definition set_active_texts (v : gset string) (g : t) : t :=
  mk (room_id g) (players g) (words g) (words_list g) (trie g) (running g)
     v (used_words g).
Definition set_used_words (v : gset string) (g : t) : t :=
  mk (room_id g) (players g) (words g) (words_list g) (trie g) (running g)
     (active_texts g) v.

(** [Game(room_id, words_list)] *)
Definition new (room_id : string) (words_list : list string) : t :=
  mk room_id ∅ [] words_list
     (fold_left
        (fun tr w => if isalpha w then Trie.insert (Trie.AStr w) tr else tr)
        words_list Trie.new)
     false ∅ ∅.

(** The game [_pair_if_possible] builds for two waiting clients. *)
Definition paired (room : string) (words_list : list string)
    (sid1 u1 sid2 u2 : string) : t :=
  let g := new room words_list in
  let g := set_players
             (<[sid1 := Player.new sid1 u1 (255, 120, 120)]> (players g)) g in
  set_players (<[sid2 := Player.new sid2 u2 (120, 120, 255)]> (players g)) g.

(** [on_client_ready], for a client whose room is this game. *)
Definition client_ready (sid : string) (g : t) : t :=
  match players g !! sid with
  | Some p => set_players (<[sid := Player.set_ready true p]> (players g)) g
  | None => g
  end.

(** [_choose_unique_text]; [r] is the number [rng.choice] draws. *)
Definition _choose_unique_text (r : nat) (g : t) : option string :=
  let available_words :=
    filter (λ word, (word ∉ active_texts g) ∧ (word ∉ used_words g))
           (words_list g) in
  match available_words with
  | _ :: _ => rng_choice r available_words
  | [] =>
      let available_words :=
        filter (λ word, word ∉ active_texts g) (words_list g) in
      match available_words with
      | _ :: _ => rng_choice r available_words
      | [] => rng_choice r (words_list g)
      end
  end.

(** What [spawn_word] takes from [rng] and the clock: the number drawn by
    [rng.choice], [int(time.time()*1000)], [rng.randrange(100000)],
    [rng.randint(40, CANVAS_W-160)] and [rng.random()]. *)
Record draws := mk_draws {
  d_choice : nat;
  d_now_ms : Z;
  d_suffix : Z;
  d_x : Z;
  d_random : float }.

(** [spawn_word]; [None] is the exception [rng.choice] raises. *)
Definition spawn_word (d : draws) (g : t) : option (t * Word.t) :=
  match _choose_unique_text (d_choice d) g with
  | None => None
  | Some text =>
      let wid := "w_" ++ (str_of_int (d_now_ms d)
                          ++ ("_" ++ str_of_int (d_suffix d))) in
      let x := PrimFloat.of_uint63 (Uint63.of_Z (d_x d)) in
      let y := (-40)%float in
      let speed := (WORD_SPEED_BASE + d_random d * WORD_SPEED_RAND)%float in
      let w := Word.mk wid text x y speed falling None EmptyString text in
      Some (set_active_texts ({[text]} ∪ active_texts g)
              (set_words (dict_set wid w (words g)) g), w)
  end.

(** [_despawn] *)
Definition _despawn (wid : string) (g : t) : t :=
  match dict_get wid (words g) with
  | None => g
  | Some w =>
      set_used_words ({[Word.text w]} ∪ used_words g)
        (set_active_texts (active_texts g ∖ {[Word.text w]})
           (set_words (dict_del wid (words g)) g))
  end.

(** The inner loop of [tick] over the players, for the missed word
    [wid]. *)
Definition miss_player (wid : string) (p : Player.t) : Player.t :=
  let p := if bool_decide (Player.current_word_id p = Some wid)
           then Player.set_current_word_id None p else p in
  let p := Player.set_lives (Z.max 0 (Player.lives p - MISS_LIFE_PENALTY)) p in
  Player.set_streak 0 p.

(** The body of the first loop of [tick] for the word [w]. *)
Definition tick_word (w : Word.t) (ps : gmap string Player.t)
    (missed_now : list string)
  : Word.t * gmap string Player.t * list string :=
  match Word.status w with
  | completed | missed => (w, ps, missed_now)
  | _ =>
      let w := Word.set_y (Word.y w + Word.speed w)%float w in
      if PrimFloat.leb (PrimFloat.of_uint63 (Uint63.of_Z (CANVAS_H - 120)))
                       (Word.y w)
      then (Word.set_status missed w,
            miss_player (Word.id w) <$> ps,
            (missed_now ++ [Word.id w])%list)
      else (w, ps, missed_now)
  end.

(** The first loop of [tick], over [list(self.words.values())]. *)
Fixpoint tick_scan (ws : list (string * Word.t)) (ps : gmap string Player.t)
    (missed_now : list string)
  : list (string * Word.t) * gmap string Player.t * list string :=
  match ws with
  | [] => ([], ps, missed_now)
  | (k, w) :: ws' =>
      let '(w, ps, missed_now) := tick_word w ps missed_now in
      let '(ws', ps, missed_now) := tick_scan ws' ps missed_now in
      ((k, w) :: ws', ps, missed_now)
  end.

(** The state of [tick] between its two loops, and [missed_now]. *)
Definition tick_marked (g : t) : t * list string :=
  let '(ws, ps, missed_now) := tick_scan (words g) (players g) [] in
  (set_players ps (set_words ws g), missed_now).

(** [tick] *)
Definition tick (g : t) : t :=
  let '(g, missed_now) := tick_marked g in
  fold_left (fun g wid => _despawn wid g) missed_now g.

(** The test of the lock-acquisition loop of [type_char]:
    [w.status == "falling" and not w.owner_sid and
    w.remaining.startswith(ch)]. *)
Definition lockable (ch : string) (w : Word.t) : bool :=
  bool_decide (Word.status w = falling)
  && negb (truthy (Word.owner_sid w))
  && String.prefix ch (Word.remaining w).

(** The assignments to [w] in the body of that loop. *)
Definition lock_word (sid ch : string) (w : Word.t) : Word.t :=
  let w := Word.set_owner_sid (Some sid) w in
  let w := Word.set_status locked w in
  let w := Word.set_typed ch w in
  Word.set_remaining (str_tail (Word.remaining w)) w.

(** The lock-acquisition loop of [type_char] over [self.words.values()]:
    the first word that passes the test is changed where it stands. *)
Fixpoint lock_scan (sid ch : string) (ws : list (string * Word.t))
  : option (list (string * Word.t) * Word.t) :=
  match ws with
  | [] => None
  | (k, w) :: ws' =>
      if lockable ch w
      then Some ((k, lock_word sid ch w) :: ws', lock_word sid ch w)
      else
        match lock_scan sid ch ws' with
        | Some (ws', w') => Some ((k, w) :: ws', w')
        | None => None
        end
  end.

(** [w.typed += ch; w.remaining = w.remaining[1:]] *)
Definition advance_word (ch : string) (w : Word.t) : Word.t :=
  let w := Word.set_typed (Word.typed w ++ ch) w in
  Word.set_remaining (str_tail (Word.remaining w)) w.

(** [p.current_word_id and p.current_word_id in self.words], then
    [self.words[p.current_word_id]]. *)
Definition current_word (p : Player.t) (g : t) : option (string * Word.t) :=
  match Player.current_word_id p with
  | Some wid =>
      if bool_decide (wid = EmptyString) then None
      else match dict_get wid (words g) with
           | Some w => Some (wid, w)
           | None => None
           end
  | None => None
  end.

(** [p.score += SCORE_PER_CHAR; p.streak += 1] *)
Definition award_char (p : Player.t) : Player.t :=
  let p := Player.set_score (Player.score p + SCORE_PER_CHAR) p in
  Player.set_streak (Player.streak p + 1) p.

(** [type_char] *)
Definition type_char (sid ch : string) (g : t) : t * Outcome :=
  match players g !! sid with
  | None => (g, Noop)
  | Some p =>
      if Player.lives p <=? 0 then (g, Noop) else
      let ch := lower ch in
      if negb (Nat.eqb (String.length ch) 1) || negb (str_in ch ascii_lowercase)
      then (g, Noop) else
      match current_word p g with
      | Some (wid, w) =>
          if bool_decide (Word.owner_sid w = Some sid)
             && head_is ch (Word.remaining w)
          then
            let w := advance_word ch w in
            let p := award_char p in
            if bool_decide (Word.remaining w = EmptyString) then
              let w := Word.set_status completed w in
              let p := Player.set_score (Player.score p + WORD_BONUS) p in
              let g := _despawn (Word.id w)
                         (set_words (dict_set wid w (words g)) g) in
              let p := Player.set_current_word_id None p in
              (set_players (<[sid := p]> (players g)) g, Completed w sid)
            else
              (set_players (<[sid := p]> (players g))
                 (set_words (dict_set wid w (words g)) g),
               Progress w)
          else
            let p := Player.set_streak 0 p in
            (set_players (<[sid := p]> (players g)) g, BadKey)
      | None =>
          match lock_scan sid ch (words g) with
          | Some (ws, w) =>
              let p := Player.set_current_word_id (Some (Word.id w)) p in
              let p := award_char p in
              (set_players (<[sid := p]> (players g)) (set_words ws g),
               Progress w)
          | None =>
              let p := Player.set_streak 0 p in
              (set_players (<[sid := p]> (players g)) g, BadKey)
          end
      end
  end.

(** Typing the strings [chs] one after the other as player [sid]; the
    outcomes come in the order of the keys. *)
Fixpoint type_chars (sid : string) (chs : list string) (g : t)
  : t * list Outcome :=
  match chs with
  | [] => (g, [])
  | ch :: chs' =>
      let '(g, o) := type_char sid ch g in
      let '(g, os) := type_chars sid chs' g in
      (g, o :: os)
  end.
(** [_all_ready] *)
Definition _all_ready (g : t) : bool :=
  bool_decide (size (players g) = 2%nat)
  && bool_decide (map_Forall (fun _ p => Player.ready p = true) (players g)).

(** [snapshot] *)
Definition snapshot (g : t) : list Word.public :=
  map (fun kw => Word.to_public kw.2 (players g)) (words g).

(** What [on_typed_character] does to the game of the client: the
    keystroke, and after a [completed] result a second
    [_despawn(result["word"]["id"])]. *)
Definition on_typed_character (sid ch : string) (g : t) : t :=
  let '(g, result) := type_char sid ch g in
  match result with
  | Completed w _ => _despawn (Word.id w) g
  | _ => g
  end.
End Game.

(** ** Runs of a match *)

(** One operation on a game: a client marks itself ready, a word is
    spawned, a tick, a keystroke. *)
Inductive step : Game.t → Game.t → Prop :=
  | step_ready sid g : step g (Game.client_ready sid g)
  | step_spawn d g g' w : Game.spawn_word d g = Some (g', w) → step g g'
  | step_tick g : step g (Game.tick g)
  | step_type sid ch g : step g (Game.type_char sid ch g).1.

(** The games a match goes through: [_pair_if_possible] builds the first
    one for two clients, whose session ids are not empty. *)
Inductive reachable : Game.t → Prop :=
  | reach_paired room words_list sid1 u1 sid2 u2 :
      sid1 ≠ EmptyString → sid2 ≠ EmptyString →
      reachable (Game.paired room words_list sid1 u1 sid2 u2)
  | reach_step g g' : reachable g → step g g' → reachable g'.

(** What holds of a word stored under the key [k], with the players [ps]. *)
Definition word_inv (ps : gmap string Player.t) (k : string) (w : Word.t)
  : Prop :=
  Word.id w = k ∧ k ≠ EmptyString ∧
  Word.typed w ++ Word.remaining w = Word.text w ∧
  match Word.status w with
  | falling => Word.owner_sid w = None ∧ Word.typed w = EmptyString
  | locked =>
      ∃ sid p, Word.owner_sid w = Some sid ∧ sid ≠ EmptyString ∧
               ps !! sid = Some p ∧ Player.current_word_id p = Some k
  | completed | missed => False
  end.

Record game_inv (g : Game.t) : Prop := {
  inv_words : ∀ k w, dict_get k (Game.words g) = Some w →
                     word_inv (Game.players g) k w;
  inv_keys : NoDup (Game.words g).*1;
  inv_players : ∀ sid p, Game.players g !! sid = Some p →
                         sid ≠ EmptyString ∧ 0 ≤ Player.lives p }.

(** The moves of a word's status the specification allows (staying
    included). *)
Inductive status_step : Status → Status → Prop :=
  | status_stay s : status_step s s
  | status_lock : status_step falling locked
  | status_complete : status_step locked completed
  | status_miss_falling : status_step falling missed
  | status_miss_locked : status_step locked missed.

(** The word reaches the miss line on this tick. *)
Definition crosses (w : Word.t) : bool :=
  match Word.status w with
  | completed | missed => false
  | _ => PrimFloat.leb 680 (Word.y w + Word.speed w)
  end.

(** The word after a tick that does not lose it. *)
Definition advanced (w : Word.t) : Word.t :=
  Word.set_y (Word.y w + Word.speed w)%float w.

(** The word after a tick. *)
Definition ticked (w : Word.t) : Word.t :=
  if crosses w then Word.set_status missed (advanced w)
  else match Word.status w with
       | completed | missed => w
       | _ => advanced w
       end.

(** The ids [tick] collects in [missed_now]. *)
Fixpoint missed_ids (ws : list (string * Word.t)) : list string :=
  match ws with
  | [] => []
  | (k, w) :: ws' =>
      if crosses w then Word.id w :: missed_ids ws' else missed_ids ws'
  end.

(** A player after the words [wids] were missed, one after the other. *)
Definition missed_by (wids : list string) (p : Player.t) : Player.t :=
  fold_left (fun p wid => Game.miss_player wid p) wids p.

(** The players after the words [wids] were missed. *)
Definition miss_players (wids : list string) (ps : gmap string Player.t)
  : gmap string Player.t :=
  fold_left (fun ps wid => Game.miss_player wid <$> ps) wids ps.

(** The second loop of [tick]. *)
Definition despawn_all (wids : list string) (g : Game.t) : Game.t :=
  fold_left (fun g wid => Game._despawn wid g) wids g.

(** A keystroke [type_char] does not ignore: one lowercase letter. *)
Definition single_lowercase (ch : string) : Prop :=
  ∃ c, ch = String c EmptyString ∧ is_ascii_lowercase c = true.

(** The keys of a text, one string per character. *)
Fixpoint keys_of (s : string) : list string :=
  match s with
  | EmptyString => []
  | String c s' => String c EmptyString :: keys_of s'
  end.

Fixpoint all_lowercase (s : string) : bool :=
  match s with
  | EmptyString => true
  | String c s' => is_ascii_lowercase c && all_lowercase s'
  end.

(** Is the node at the end of the path [cs] from [node] terminal. *)
Definition terminal_at (cs : string) (node : TrieNode.t) : bool :=
  match Trie.descend_from cs node with
  | Some n => TrieNode.is_end_of_word n
  | None => false
  end.

(** The branches of [type_char sid ch g]: the state and the outcome it
    returns in each, and what holds when the branch is taken. *)
Inductive type_char_case (sid ch : string) (g : Game.t)
  : Game.t → Outcome → Prop :=
  | tc_unknown :
      Game.players g !! sid = None →
      type_char_case sid ch g g Noop
  | tc_dead p :
      Game.players g !! sid = Some p → Player.lives p ≤ 0 →
      type_char_case sid ch g g Noop
  | tc_invalid p :
      Game.players g !! sid = Some p → 0 < Player.lives p →
      ¬ single_lowercase (lower ch) →
      type_char_case sid ch g g Noop
  | tc_progress p c wid w r :
      Game.players g !! sid = Some p → 0 < Player.lives p →
      lower ch = String c EmptyString → is_ascii_lowercase c = true →
      Game.current_word p g = Some (wid, w) →
      Word.owner_sid w = Some sid →
      Word.remaining w = String c r → r ≠ EmptyString →
      let w' := Game.advance_word (String c EmptyString) w in
      type_char_case sid ch g
        (Game.set_players (<[sid := Game.award_char p]> (Game.players g))
           (Game.set_words (dict_set wid w' (Game.words g)) g))
        (Progress w')
  | tc_completed p c wid w :
      Game.players g !! sid = Some p → 0 < Player.lives p →
      lower ch = String c EmptyString → is_ascii_lowercase c = true →
      Game.current_word p g = Some (wid, w) →
      Word.owner_sid w = Some sid →
      Word.remaining w = String c EmptyString →
      let w' := Word.set_status completed
                  (Game.advance_word (String c EmptyString) w) in
      let p' := Game.award_char p in
      let p' := Player.set_score (Player.score p' + WORD_BONUS) p' in
      let p' := Player.set_current_word_id None p' in
      let g' := Game._despawn (Word.id w')
                  (Game.set_words (dict_set wid w' (Game.words g)) g) in
      type_char_case sid ch g
        (Game.set_players (<[sid := p']> (Game.players g')) g')
        (Completed w' sid)
  | tc_wrong_key p c wid w :
      Game.players g !! sid = Some p → 0 < Player.lives p →
      lower ch = String c EmptyString → is_ascii_lowercase c = true →
      Game.current_word p g = Some (wid, w) →
      (Word.owner_sid w ≠ Some sid ∨ ∀ r, Word.remaining w ≠ String c r) →
      type_char_case sid ch g
        (Game.set_players (<[sid := Player.set_streak 0 p]> (Game.players g)) g)
        BadKey
  | tc_lock p c ws w' :
      Game.players g !! sid = Some p → 0 < Player.lives p →
      lower ch = String c EmptyString → is_ascii_lowercase c = true →
      Game.current_word p g = None →
      Game.lock_scan sid (String c EmptyString) (Game.words g) = Some (ws, w') →
      let p' := Game.award_char
                  (Player.set_current_word_id (Some (Word.id w')) p) in
      type_char_case sid ch g
        (Game.set_players (<[sid := p']> (Game.players g))
           (Game.set_words ws g))
        (Progress w')
  | tc_no_match p c :
      Game.players g !! sid = Some p → 0 < Player.lives p →
      lower ch = String c EmptyString → is_ascii_lowercase c = true →
      Game.current_word p g = None →
      Game.lock_scan sid (String c EmptyString) (Game.words g) = None →
      type_char_case sid ch g
        (Game.set_players (<[sid := Player.set_streak 0 p]> (Game.players g)) g)
        BadKey.

(** ** The scenario of the specification

    Word bank ["rocket"; "comet"], players P1 and P2; the first spawn draws
    "rocket". *)

Definition scenario_draws : Game.draws :=
  Game.mk_draws 0 1000 7 100 0.5%float.

Definition scenario_start : Game.t :=
  Game.paired "room" ["rocket"; "comet"] "P1" "alice" "P2" "bob".

Definition scenario_spawned : Game.t :=
  default scenario_start (fst <$> Game.spawn_word scenario_draws scenario_start).

(** P1 has typed "r". *)
Definition scenario_locked : Game.t :=
  (Game.type_char "P1" "r" scenario_spawned).1.

(** The word "rocket", locked by P1, has fallen for 423 ticks and stands
    just above the miss line. *)
Definition scenario_above_line : Game.t :=
  Nat.iter 423 Game.tick scenario_locked.

(** A match whose word bank holds a one-letter word, after its first
    spawn. *)
Definition one_letter_spawned : Game.t :=
  let g := Game.paired "room" ["a"] "P1" "alice" "P2" "bob" in
  default g (fst <$> Game.spawn_word scenario_draws g).

(** [type_char] returns [noop] exactly when the player is unknown, has 0
    lives, or the typed string is not one lowercase letter: the reading
    that takes the string as it is typed. *)
Definition noop_iff_as_typed (sid ch : string) (g : Game.t) : Prop :=
  (Game.type_char sid ch g).2 = Noop ↔
  Game.players g !! sid = None
  ∨ (∃ p, Game.players g !! sid = Some p ∧ Player.lives p = 0)
  ∨ ¬ single_lowercase ch.

(** ** Matches in which a keystroke meets an earlier guard

    The same draws at other clock values, a match that runs out of lives
    and a match where each player holds a word. *)

(** The game after a spawn with the draws [d] (the game itself when
    [rng.choice] raises). *)
Definition spawned (d : Game.draws) (g : Game.t) : Game.t :=
  default g (fst <$> Game.spawn_word d g).

(** The draws of the scenario, with the clock at [now_ms]. *)
Definition draws_at (now_ms : Z) : Game.draws :=
  Game.mk_draws 0 now_ms 7 100 0.5%float.

(** Word bank ["rocket"; "comet"; "planet"; "star"].  The first three words
    are spawned together and fall for 423 ticks, to just above the miss
    line; then "star" is spawned and P1 locks it with "s". *)
Definition star_locked : Game.t :=
  let g := Game.paired "room" ["rocket"; "comet"; "planet"; "star"]
                       "P1" "alice" "P2" "bob" in
  let g := spawned (draws_at 1002)
             (spawned (draws_at 1001) (spawned (draws_at 1000) g)) in
  let g := Nat.iter 423 Game.tick g in
  (Game.type_char "P1" "s" (spawned (draws_at 1003) g)).1.

(** The next tick loses "rocket", "comet" and "planet": both players are
    at 0 lives, and P1 still owns "star", locked, with "tar" left. *)
Definition out_of_lives : Game.t := Game.tick star_locked.


(** For every player who owns a locked word, a letter that is not the
    first character of what remains of that word sets the streak of the
    player to zero, returns [bad_key] and leaves everything else as it was:
    the reading that takes every owner of a locked word, whatever their
    lives. *)
Definition wrong_key_as_stated (g : Game.t) (sid ch : string) : Prop :=
  reachable g →
  ∀ p wid w,
    Game.players g !! sid = Some p →
    dict_get wid (Game.words g) = Some w →
    Word.owner_sid w = Some sid → Word.status w = locked →
    single_lowercase (lower ch) →
    (∀ r, Word.remaining w ≠ (lower ch ++ r)%string) →
    Game.type_char sid ch g
    = (Game.set_players (<[sid := Player.set_streak 0 p]> (Game.players g)) g,
       BadKey).



(** ** Directories built by the operations *)

(** The directories a program gets from [Trie()] by [insert] and
    [remove]. *)
Inductive built : Trie.t → Prop :=
  | built_new : built Trie.new
  | built_insert a tr : built tr → built (Trie.insert a tr)
  | built_remove word tr : built tr → built (Trie.remove word tr).

(** What a terminal node holds, as [_collect] reads it. *)
Definition payload (node : TrieNode.t) : option Trie.Any :=
  match TrieNode.word_object node with
  | Some o => Some (Trie.AObj o)
  | None => Trie.AStr <$> TrieNode.word_text node
  end.

(** Below [node], which stands at the end of [path]: no node has two
    children under one key, and every terminal node holds the text that led
    to it. *)
Definition paths_ok (path : string) (node : TrieNode.t) : Prop :=
  ∀ cs n, Trie.descend_from cs node = Some n →
          NoDup (TrieNode.children n).*1
          ∧ (TrieNode.is_end_of_word n = true →
             ∃ x, payload n = Some x
                  ∧ lower (Trie.text_of x) = (path ++ cs)%string).

(** What [_collect] appends for [node] itself. *)
Definition collect_here (node : TrieNode.t) : list Trie.Any :=
  if TrieNode.is_end_of_word node
  then match payload node with Some x => [x] | None => [] end
  else [].

(** ** Figures of a player *)

(** Lives between 0 and [PLAYER_LIVES], streak and score not negative, and
    the score a multiple of [SCORE_PER_CHAR]. *)
Definition stats_ok (p : Player.t) : Prop :=
  0 ≤ Player.lives p ≤ PLAYER_LIVES ∧ 0 ≤ Player.streak p
  ∧ 0 ≤ Player.score p ∧ (SCORE_PER_CHAR | Player.score p).

(** The texts in play come from the word bank. *)
Definition bank_ok (g : Game.t) : Prop :=
  (∀ k w, dict_get k (Game.words g) = Some w → Word.text w ∈ Game.words_list g)
  ∧ (∀ text, text ∈ Game.active_texts g → text ∈ Game.words_list g)
  ∧ (∀ text, text ∈ Game.used_words g → text ∈ Game.words_list g).

(** How an operation may change a player: never who they are, never the
    lives upwards. *)
Definition player_evolves (p p' : Player.t) : Prop :=
  Player.sid p' = Player.sid p ∧ Player.username p' = Player.username p
  ∧ Player.color p' = Player.color p
  ∧ (0 ≤ Player.lives p → 0 ≤ Player.lives p' ≤ Player.lives p)
  ∧ (Player.ready p = true → Player.ready p' = true).

(** The players of [g'] are those of [g], each one evolved. *)
Definition players_evolve (g g' : Game.t) : Prop :=
  ∀ sid, match Game.players g !! sid, Game.players g' !! sid with
         | Some p, Some p' => player_evolves p p'
         | None, None => True
         | _, _ => False
         end.

(** ** web_game_server.py: the queue of players *)

Module Lobby.
(** The module-level tables [WAITING], [WAITING_SIDS], [ROOM_BY_SID] and
    [GAMES]. *)
Record t := mk {
  WAITING : list (string * string);
  WAITING_SIDS : gset string;
  ROOM_BY_SID : gmap string string;
  GAMES : gmap string Game.t }.

(** The tables when the server starts. *)
Definition start : t := mk [] ∅ ∅ ∅.

(** The loop of [_pair_if_possible], at its iteration [i]; [clock i] is
    [int(time.time()*1000)] as that iteration reads it, and [word_bank] is
    the global [WORD_BANK]. *)
Fixpoint pair_loop (word_bank : list string) (clock : nat → Z) (i : nat)
    (waiting : list (string * string)) (sids : gset string)
    (rooms : gmap string string) (games : gmap string Game.t) : t :=
  match waiting with
  | (sid1, u1) :: (sid2, u2) :: waiting =>
      let sids := sids ∖ {[sid1]} in
      let sids := sids ∖ {[sid2]} in
      let room := "room_" ++ str_of_int (clock i) in
      let rooms := <[sid2 := room]> (<[sid1 := room]> rooms) in
      let game := Game.paired room word_bank sid1 u1 sid2 u2 in
      let games := <[room := game]> games in
      pair_loop word_bank clock (S i) waiting sids rooms games
  | _ => mk waiting sids rooms games
  end.

(** [_pair_if_possible] *)
Definition _pair_if_possible (word_bank : list string) (clock : nat → Z)
    (q : t) : t :=
  pair_loop word_bank clock 0 (WAITING q) (WAITING_SIDS q) (ROOM_BY_SID q)
            (GAMES q).

(** [on_join] for the client [sid]; [username] is [session.get("user")]. *)
Definition on_join (word_bank : list string) (clock : nat → Z)
    (username : option string) (sid : string) (q : t) : t :=
  match username with
  | Some user =>
      if bool_decide (user = EmptyString) then q
      else if bool_decide (sid ∈ WAITING_SIDS q) then q
      else _pair_if_possible word_bank clock
             (mk (WAITING q ++ [(sid, user)])%list ({[sid]} ∪ WAITING_SIDS q)
                 (ROOM_BY_SID q) (GAMES q))
  | None => q
  end.
End Lobby.

(** The tables the server goes through, join after join. *)
Inductive lobby_reachable (word_bank : list string) : Lobby.t → Prop :=
  | lobby_start : lobby_reachable word_bank Lobby.start
  | lobby_join clock username sid q :
      lobby_reachable word_bank q →
      lobby_reachable word_bank (Lobby.on_join word_bank clock username sid q).

(** ** web_game_server.py: accounts *)

Module Accounts.
(** [users.json]: [None] when the file does not exist, else the object it
    holds (the file is written by [api_signup] only). *)
Definition file := option (gmap string string).

(** The answers: [jsonify] with [ok] true (and the session user it sets,
    for [api_signin]), or status 400 with a message. *)
Inductive response :=
  | Ok (session_user : option string)
  | Error400 (msg : string).

(** [api_signin] *)
Definition api_signin (username password : string) (f : file) : response :=
  let user := strip username in
  let pw := strip password in
  match f with
  | None => Error400 "No users"
  | Some users =>
      if bool_decide (users !! user = Some pw) then Ok (Some user)
      else Error400 "Invalid credentials"
  end.

(** [api_signup]: the answer and [users.json] after it. *)
Definition api_signup (username password : string) (f : file)
  : response * file :=
  let email := strip username in
  let password := strip password in
  if bool_decide (email = EmptyString) || bool_decide (password = EmptyString)
  then (Error400 "Email and password required", f)
  else if (String.length password <? 6)%nat
  then (Error400 "Password must be at least 6 characters", f)
  else
    let users := default ∅ f in
    match users !! email with
    | Some _ => (Error400 "Email already registered", f)
    | None => (Ok None, Some (<[email := password]> users))
    end.
End Accounts.

(** * Properties *)

(** ** Dictionaries *)

Section DictFacts.
Context {K V : Type} `{EqDecision K}.
Implicit Types (k : K) (v : V) (d : list (K * V)).

Lemma dict_get_set_eq k v d : dict_get k (dict_set k v d) = Some v.
Proof.
  induction d as [|[k' v'] d IH]; simpl.
  - by rewrite decide_True.
  - destruct (decide (k = k')) as [->|Hne]; simpl.
    + by rewrite decide_True.
    + by rewrite decide_False.
Qed.

Lemma dict_get_set_ne k k' v d :
  k ≠ k' → dict_get k' (dict_set k v d) = dict_get k' d.
Proof.
  intros Hne. induction d as [|[k0 v0] d IH]; simpl.
  - by rewrite decide_False.
  - destruct (decide (k = k0)) as [->|Hk]; simpl.
    + by rewrite !decide_False.
    + destruct (decide (k' = k0)); done.
Qed.

Lemma dict_get_del_eq k d : dict_get k (dict_del k d) = None.
Proof.
  induction d as [|[k' v'] d IH]; simpl; [done|].
  destruct (decide (k = k')) as [->|Hne]; simpl; [done|].
  by rewrite decide_False.
Qed.

Lemma dict_get_del_ne k k' d :
  k ≠ k' → dict_get k' (dict_del k d) = dict_get k' d.
Proof.
  intros Hne. induction d as [|[k0 v0] d IH]; simpl; [done|].
  destruct (decide (k = k0)) as [->|Hk]; simpl.
  - by rewrite decide_False.
  - destruct (decide (k' = k0)); done.
Qed.

Lemma dict_get_None_keys k d : dict_get k d = None ↔ k ∉ d.*1.
Proof.
  induction d as [|[k' v'] d IH]; simpl.
  - split; [intros _; apply not_elem_of_nil|done].
  - rewrite not_elem_of_cons. destruct (decide (k = k')) as [->|Hne].
    + split; [done|]. intros [? _]. done.
    + rewrite IH. tauto.
Qed.

Lemma dict_get_elem_of k v d : dict_get k d = Some v → (k, v) ∈ d.
Proof.
  induction d as [|[k' v'] d IH]; simpl; [done|].
  destruct (decide (k = k')) as [->|Hne]; intros Hg.
  - injection Hg as ->. apply list_elem_of_here.
  - apply list_elem_of_further. auto.
Qed.

Lemma elem_of_dict_get k v d : NoDup d.*1 → (k, v) ∈ d → dict_get k d = Some v.
Proof.
  induction d as [|[k' v'] d IH]; simpl.
  - intros _ Hin. by apply elem_of_nil in Hin.
  - rewrite NoDup_cons. intros [Hk Hnd] Hin.
    apply elem_of_cons in Hin as [Heq|Hin].
    + injection Heq as -> ->. by rewrite decide_True.
    + destruct (decide (k = k')) as [->|Hne]; [|auto].
      exfalso. apply Hk. by apply (list_elem_of_fmap_2 fst _ (k', v)).
Qed.

Lemma dict_del_absent k d : dict_get k d = None → dict_del k d = d.
Proof.
  induction d as [|[k' v'] d IH]; simpl; [done|].
  destruct (decide (k = k')) as [->|Hne]; [done|].
  intros Hg. by rewrite IH.
Qed.

Lemma dict_set_keys k v d :
  (dict_set k v d).*1 =
  match dict_get k d with Some _ => d.*1 | None => (d.*1 ++ [k])%list end.
Proof.
  induction d as [|[k' v'] d IH]; csimpl; [done|].
  destruct (decide (k = k')) as [->|Hne]; csimpl; [done|].
  rewrite IH. by destruct (dict_get k d).
Qed.

Lemma dict_set_NoDup k v d : NoDup d.*1 → NoDup (dict_set k v d).*1.
Proof.
  intros Hnd. rewrite dict_set_keys.
  destruct (dict_get k d) eqn:Hg; [done|].
  apply NoDup_app. split_and!; [done| |apply NoDup_singleton].
  intros x Hx Hx'. apply list_elem_of_singleton in Hx' as ->.
  by apply dict_get_None_keys in Hg.
Qed.

Lemma dict_del_elem_of k k' d : k' ∈ (dict_del k d).*1 → k' ∈ d.*1.
Proof.
  induction d as [|[k0 v0] d IH]; simpl; [done|].
  destruct (decide (k = k0)) as [->|Hne]; simpl.
  - intros Hin. apply list_elem_of_further. auto.
  - rewrite !elem_of_cons. intros [->|Hin]; auto.
Qed.

Lemma dict_del_NoDup k d : NoDup d.*1 → NoDup (dict_del k d).*1.
Proof.
  induction d as [|[k' v'] d IH]; simpl; [done|].
  rewrite NoDup_cons. intros [Hk Hnd].
  destruct (decide (k = k')) as [->|Hne]; simpl; [auto|].
  apply NoDup_cons. split; [|auto].
  intros Hin. apply Hk. by eapply dict_del_elem_of.
Qed.
End DictFacts.

(** ** The prefix directory *)

Lemma terminal_at_count cs ch e wt wo pc wt' wo' pc' :
  terminal_at cs (TrieNode.mk ch e wt wo pc)
  = terminal_at cs (TrieNode.mk ch e wt' wo' pc').
Proof. by destruct cs. Qed.

Lemma remove_from_None_terminal cs :
  ∀ node, Trie.remove_from cs node = None → terminal_at cs node = false.
Proof.
  induction cs as [|ch cs IH]; intros node; unfold terminal_at;
    cbn [Trie.remove_from Trie.descend_from].
  - by destruct (TrieNode.is_end_of_word node).
  - destruct (dict_get ch (TrieNode.children node)) as [child|] eqn:Hc; [|done].
    specialize (IH child). unfold terminal_at in IH.
    destruct (Trie.remove_from cs child) as [[c' [|]]|]; [|done|auto].
    by destruct (Trie.prunable _).
Qed.

Lemma remove_from_Some_terminal cs :
  ∀ node node' going,
    Trie.remove_from cs node = Some (node', going) →
    terminal_at cs node' = false.
Proof.
  induction cs as [|ch cs IH]; intros node node' going;
    cbn [Trie.remove_from].
  - destruct (TrieNode.is_end_of_word node); [|done].
    by intros [= <- _].
  - destruct (dict_get ch (TrieNode.children node)) as [child|] eqn:Hc; [|done].
    destruct (Trie.remove_from cs child) as [[c' [|]]|] eqn:Hr; [| |done].
    + apply IH in Hr.
      destruct (Trie.prunable _); intros [= <- _]; unfold terminal_at; simpl.
      * by rewrite dict_get_del_eq.
      * rewrite dict_get_set_eq. destruct c' as [c e wt wo pc].
        by rewrite (terminal_at_count cs c e wt wo pc wt wo (pc - 1)) in Hr.
    + apply IH in Hr. intros [= <- _]. unfold terminal_at; simpl.
      by rewrite dict_get_set_eq.
Qed.

(** After [remove(text)] the node at the end of the path of [text], when
    the path is still there, carries no terminal mark. *)
Lemma remove_not_indexed text tr :
  Trie.is_indexed text (Trie.remove text tr) = false.
Proof.
  unfold Trie.is_indexed, Trie._descend, Trie.remove.
  destruct (Trie.remove_from (lower text) (Trie.root tr)) as [[r going]|] eqn:Hr.
  - by apply remove_from_Some_terminal in Hr.
  - by apply remove_from_None_terminal in Hr.
Qed.

Lemma dict_del_set_fresh {V} (ch : ascii) (v : V) (d : list (ascii * V)) :
  dict_get ch d = None → dict_del ch (dict_set ch v d) = d.
Proof.
  induction d as [|[k' v'] d IH]; simpl.
  - by rewrite decide_True.
  - destruct (decide (ch = k')) as [->|Hne]; [done|].
    intros Hd. simpl. rewrite decide_False by done. by rewrite IH.
Qed.

(** Below a node that [insert] has just created, [remove] undoes
    [insert]: every node of the path is pruned. *)
Lemma remove_insert_new_node a cs :
  ∀ pc, Trie.remove_from cs
          (Trie.insert_from cs a (TrieNode.mk [] false None None pc))
        = Some (TrieNode.mk [] false None None pc, true).
Proof.
  induction cs as [|ch cs IH]; intros pc; [done|].
  cbn [Trie.insert_from Trie.remove_from dict_get default TrieNode.children
       TrieNode.new TrieNode.is_end_of_word TrieNode.word_text
       TrieNode.word_object TrieNode.prefix_count dict_set].
  rewrite decide_True by done. rewrite IH.
  unfold Trie.prunable. cbn. by rewrite decide_True.
Qed.

(** The part of C1 that holds: when the first letter of a text is new to
    the directory, removing the text after inserting it gives the
    directory back, and with it the count of that letter. *)
Lemma remove_insert_new_letter a tr ch rest :
  lower (Trie.text_of a) = String ch rest →
  dict_get ch (TrieNode.children (Trie.root tr)) = None →
  Trie.remove (Trie.text_of a) (Trie.insert a tr) = tr.
Proof.
  intros Hlow Hnew. unfold Trie.remove, Trie.insert. rewrite Hlow.
  destruct tr as [[d e wt wo pc]]. simpl in Hnew.
  cbn [Trie.root Trie.insert_from Trie.remove_from TrieNode.children
       TrieNode.is_end_of_word TrieNode.word_text TrieNode.word_object
       TrieNode.prefix_count].
  rewrite Hnew, dict_get_set_eq. cbn [default TrieNode.new TrieNode.children
       TrieNode.is_end_of_word TrieNode.word_text TrieNode.word_object
       TrieNode.prefix_count].
  rewrite (remove_insert_new_node a rest (0 + 1)). cbn.
  by rewrite dict_del_set_fresh.
Qed.

(** Alone in the directory, a text is removed without a trace. *)
Example insert_remove_alone :
  Trie.remove "ab" (Trie.insert (Trie.AStr "ab") Trie.new) = Trie.new.
Proof. reflexivity. Qed.

(** C1. Inserting and then removing a text does not always bring the
    count of its first letter back: with "abc" indexed, [insert("ab")]
    raises the count of "a" from 1 to 2, and [remove("ab")], whose reversed
    loop stops at the first node it keeps (the node of "b", which has the
    child "c"), leaves it at 2.  The terminal mark of "ab" is cleared, and
    "abc" is still indexed. *)
Theorem prefix_count_not_restored :
  let before := Trie.insert (Trie.AStr "abc") Trie.new in
  let after := Trie.remove "ab" (Trie.insert (Trie.AStr "ab") before) in
  Trie.get_prefix_count "a" before = 1 ∧
  Trie.get_prefix_count "a" (Trie.insert (Trie.AStr "ab") before) = 2 ∧
  Trie.get_prefix_count "a" after = 2 ∧
  Trie.is_indexed "ab" after = false ∧
  Trie.is_indexed "abc" after = true.
Proof. repeat split; reflexivity. Qed.

(** ** Ticks *)

Lemma miss_line : PrimFloat.of_uint63 (Uint63.of_Z (CANVAS_H - 120)) = 680%float.
Proof. reflexivity. Qed.

Lemma tick_word_spec w ps m :
  Game.tick_word w ps m =
  (ticked w,
   if crosses w then Game.miss_player (Word.id w) <$> ps else ps,
   if crosses w then (m ++ [Word.id w])%list else m).
Proof.
  unfold Game.tick_word, ticked, crosses. rewrite miss_line.
  destruct (Word.status w); try done; cbn;
    by destruct (PrimFloat.leb 680 (Word.y w + Word.speed w)).
Qed.

Lemma tick_scan_spec ws :
  ∀ ps m,
    Game.tick_scan ws ps m =
    (map (fun kw => (kw.1, ticked kw.2)) ws,
     miss_players (missed_ids ws) ps,
     (m ++ missed_ids ws)%list).
Proof.
  induction ws as [|[k w] ws IH]; intros ps m; simpl.
  - by rewrite app_nil_r.
  - rewrite tick_word_spec, IH. destruct (crosses w); simpl; [|done].
    by rewrite <- app_assoc.
Qed.

Lemma tick_unfold g :
  Game.tick g =
  despawn_all (missed_ids (Game.words g))
    (Game.set_players (miss_players (missed_ids (Game.words g)) (Game.players g))
       (Game.set_words (map (fun kw => (kw.1, ticked kw.2)) (Game.words g)) g)).
Proof. unfold Game.tick, Game.tick_marked. by rewrite tick_scan_spec. Qed.

Lemma dict_get_ticked k (ws : list (string * Word.t)) :
  dict_get k (map (fun kw => (kw.1, ticked kw.2)) ws) = ticked <$> dict_get k ws.
Proof.
  induction ws as [|[k' w] ws IH]; simpl; [done|].
  by destruct (decide (k = k')).
Qed.

Lemma keys_ticked (ws : list (string * Word.t)) :
  (map (fun kw => (kw.1, ticked kw.2)) ws).*1 = ws.*1.
Proof. induction ws as [|[k' w] ws IH]; csimpl; [done|]. by f_equal. Qed.

Lemma miss_players_lookup wids :
  ∀ ps sid, miss_players wids ps !! sid = missed_by wids <$> ps !! sid.
Proof.
  induction wids as [|wid wids IH]; intros ps sid; simpl.
  - by destruct (ps !! sid).
  - unfold miss_players, missed_by in *; simpl. rewrite IH, lookup_fmap.
    by destruct (ps !! sid).
Qed.

Lemma missed_by_score wids : ∀ p, Player.score (missed_by wids p) = Player.score p.
Proof.
  induction wids as [|wid wids IH]; intros p; simpl; [done|].
  unfold missed_by in *; simpl. rewrite IH.
  unfold Game.miss_player. by case_bool_decide.
Qed.

Lemma missed_by_lives wids :
  ∀ p, 0 ≤ Player.lives p →
       Player.lives (missed_by wids p)
       = Z.max 0 (Player.lives p - Z.of_nat (length wids) * MISS_LIFE_PENALTY).
Proof.
  unfold MISS_LIFE_PENALTY.
  induction wids as [|wid wids IH]; intros p Hp.
  - simpl. lia.
  - unfold missed_by in *. cbn [fold_left length]. rewrite Nat2Z.inj_succ.
    assert (Player.lives (Game.miss_player wid p)
            = Z.max 0 (Player.lives p - 1)) as Hl.
    { unfold Game.miss_player, MISS_LIFE_PENALTY. by case_bool_decide. }
    rewrite IH; rewrite Hl; lia.
Qed.

Lemma missed_by_streak wids p :
  wids ≠ [] → Player.streak (missed_by wids p) = 0.
Proof.
  revert p. induction wids as [|wid wids IH]; intros p Hne; [done|].
  unfold missed_by in *. cbn [fold_left].
  destruct wids as [|wid' wids]; [done|]. by apply IH.
Qed.

Lemma missed_by_current_Some wids :
  ∀ p k, Player.current_word_id (missed_by wids p) = Some k →
         Player.current_word_id p = Some k ∧ k ∉ wids.
Proof.
  induction wids as [|wid wids IH]; intros p k; simpl.
  - intros ->. split; [done|apply not_elem_of_nil].
  - unfold missed_by in *. cbn [fold_left]. intros Hk.
    apply IH in Hk as [Hk Hnot]. unfold Game.miss_player in Hk.
    case_bool_decide as Hc; simpl in Hk; [done|].
    split; [done|]. rewrite not_elem_of_cons. split; [congruence|done].
Qed.

Lemma missed_by_current_keep wids :
  ∀ p k, Player.current_word_id p = Some k → k ∉ wids →
         Player.current_word_id (missed_by wids p) = Some k.
Proof.
  induction wids as [|wid wids IH]; intros p k Hk Hnot; simpl; [done|].
  apply not_elem_of_cons in Hnot as [Hne Hnot].
  unfold missed_by in *. cbn [fold_left]. apply IH; [|done].
  unfold Game.miss_player. rewrite bool_decide_false; [done|congruence].
Qed.

Lemma missed_by_current_None wids :
  ∀ p, Player.current_word_id p = None →
       Player.current_word_id (missed_by wids p) = None.
Proof.
  induction wids as [|wid wids IH]; intros p Hk; simpl; [done|].
  unfold missed_by in *. cbn [fold_left]. apply IH.
  unfold Game.miss_player. rewrite bool_decide_false; [done|congruence].
Qed.

Lemma despawn_words wid g :
  Game.words (Game._despawn wid g) = dict_del wid (Game.words g).
Proof.
  unfold Game._despawn. destruct (dict_get wid (Game.words g)) eqn:Hg; [done|].
  by rewrite dict_del_absent.
Qed.

Lemma despawn_players wid g : Game.players (Game._despawn wid g) = Game.players g.
Proof. unfold Game._despawn. by destruct (dict_get wid (Game.words g)). Qed.

Lemma despawn_active wid g :
  Game.active_texts (Game._despawn wid g) ⊆ Game.active_texts g.
Proof.
  unfold Game._despawn. destruct (dict_get wid (Game.words g)); simpl; [|done].
  intros text Ht. by apply elem_of_difference in Ht as [? _].
Qed.

Lemma despawn_all_players wids :
  ∀ g, Game.players (despawn_all wids g) = Game.players g.
Proof.
  induction wids as [|wid wids IH]; intros g; [done|].
  unfold despawn_all in *. cbn [fold_left]. by rewrite IH, despawn_players.
Qed.

Lemma despawn_all_get wids :
  ∀ g k, dict_get k (Game.words (despawn_all wids g))
         = if decide (k ∈ wids) then None else dict_get k (Game.words g).
Proof.
  induction wids as [|wid wids IH]; intros g k.
  - destruct (decide (k ∈ [])) as [Hin|]; [|done]. by apply elem_of_nil in Hin.
  - unfold despawn_all in *. cbn [fold_left]. rewrite IH, despawn_words.
    destruct (decide (k ∈ wids)) as [Hin|Hnot].
    + rewrite decide_True; [done|]. by apply list_elem_of_further.
    + destruct (decide (k = wid)) as [->|Hne].
      * rewrite decide_True by apply list_elem_of_here. apply dict_get_del_eq.
      * rewrite decide_False by (rewrite elem_of_cons; tauto).
        by apply dict_get_del_ne.
Qed.

Lemma despawn_all_keys wids :
  ∀ g, NoDup (Game.words g).*1 → NoDup (Game.words (despawn_all wids g)).*1.
Proof.
  induction wids as [|wid wids IH]; intros g Hnd; [done|].
  unfold despawn_all in *. cbn [fold_left]. apply IH.
  rewrite despawn_words. by apply dict_del_NoDup.
Qed.

Lemma despawn_all_active wids :
  ∀ g, Game.active_texts (despawn_all wids g) ⊆ Game.active_texts g.
Proof.
  induction wids as [|wid wids IH]; intros g; [done|].
  unfold despawn_all in *. cbn [fold_left].
  etrans; [apply IH|apply despawn_active].
Qed.

Lemma despawn_all_text_gone wids :
  ∀ g k w, k ∈ wids → dict_get k (Game.words g) = Some w →
           Word.text w ∉ Game.active_texts (despawn_all wids g).
Proof.
  induction wids as [|wid wids IH]; intros g k w Hin Hg.
  - by apply elem_of_nil in Hin.
  - unfold despawn_all in *. cbn [fold_left].
    destruct (decide (k = wid)) as [->|Hne].
    + intros Habs. apply despawn_all_active in Habs.
      unfold Game._despawn in Habs. rewrite Hg in Habs. simpl in Habs.
      apply elem_of_difference in Habs as [_ Hnot]. apply Hnot.
      by apply elem_of_singleton.
    + apply elem_of_cons in Hin as [?|Hin]; [done|].
      apply (IH _ k w Hin). rewrite despawn_words.
      by rewrite dict_get_del_ne.
Qed.

Lemma tick_players g sid :
  Game.players (Game.tick g) !! sid
  = missed_by (missed_ids (Game.words g)) <$> Game.players g !! sid.
Proof.
  rewrite tick_unfold, despawn_all_players. simpl. apply miss_players_lookup.
Qed.

Lemma tick_get g k :
  dict_get k (Game.words (Game.tick g))
  = if decide (k ∈ missed_ids (Game.words g)) then None
    else ticked <$> dict_get k (Game.words g).
Proof. rewrite tick_unfold, despawn_all_get. simpl. by rewrite dict_get_ticked. Qed.

Lemma missed_ids_elem_of (ws : list (string * Word.t)) k w :
  (k, w) ∈ ws → crosses w = true → Word.id w ∈ missed_ids ws.
Proof.
  induction ws as [|[k' w'] ws IH]; simpl.
  - intros Hin. by apply elem_of_nil in Hin.
  - intros Hin Hc. apply elem_of_cons in Hin as [[= <- <-]|Hin].
    + rewrite Hc. apply list_elem_of_here.
    + destruct (crosses w'); [apply list_elem_of_further|]; auto.
Qed.

Lemma elem_of_missed_ids (ws : list (string * Word.t)) wid :
  wid ∈ missed_ids ws →
  ∃ k w, (k, w) ∈ ws ∧ crosses w = true ∧ Word.id w = wid.
Proof.
  induction ws as [|[k' w'] ws IH]; simpl.
  - intros Hin. by apply elem_of_nil in Hin.
  - destruct (crosses w') eqn:Hc.
    + intros Hin. apply elem_of_cons in Hin as [->|Hin].
      * exists k', w'. split_and!; [apply list_elem_of_here|done..].
      * destruct (IH Hin) as (k & w & ? & ? & ?). exists k, w.
        split_and!; [by apply list_elem_of_further|done..].
    + intros Hin. destruct (IH Hin) as (k & w & ? & ? & ?). exists k, w.
      split_and!; [by apply list_elem_of_further|done..].
Qed.

(** ** Keystrokes *)

Lemma str_in_lowercase c :
  str_in (String c EmptyString) ascii_lowercase = is_ascii_lowercase c.
Proof. destruct c as [[] [] [] [] [] [] [] []]; vm_compute; reflexivity. Qed.

Lemma lower_lowercase c : is_ascii_lowercase c = true → lower_ascii c = c.
Proof.
  destruct c as [[] [] [] [] [] [] [] []]; vm_compute; intros H;
    first [reflexivity | discriminate H].
Qed.

Lemma key_check ch :
  negb (Nat.eqb (String.length ch) 1) || negb (str_in ch ascii_lowercase) = false
  ↔ single_lowercase ch.
Proof.
  rewrite orb_false_iff, !negb_false_iff. split.
  - intros [Hlen Hin]. destruct ch as [|c [|c' ch]]; try done.
    exists c. by rewrite <- str_in_lowercase.
  - intros (c & -> & Hc). by rewrite str_in_lowercase.
Qed.

Lemma prefix_empty s : String.prefix EmptyString s = true.
Proof. by destruct s. Qed.

Lemma prefix_single c s :
  String.prefix (String c EmptyString) s = true ↔ ∃ r, s = String c r.
Proof.
  destruct s as [|b r]; simpl.
  - split; [done|]. by intros [r ?].
  - destruct (ascii_dec c b) as [->|Hne].
    + rewrite prefix_empty. split; [eauto|done].
    + split; [done|]. intros [r' [= -> _]]. done.
Qed.

Lemma head_is_single c s :
  head_is (String c EmptyString) s = true ↔ ∃ r, s = String c r.
Proof.
  destruct s as [|b r]; simpl.
  - split; [done|]. by intros [r ?].
  - rewrite bool_decide_eq_true. split.
    + intros [= ->]. eauto.
    + intros [r' [= -> _]]. done.
Qed.

Lemma type_char_cases sid ch g :
  type_char_case sid ch g (Game.type_char sid ch g).1 (Game.type_char sid ch g).2.
Proof.
  unfold Game.type_char.
  destruct (Game.players g !! sid) as [p|] eqn:Hp; [|by apply tc_unknown].
  destruct (Z.leb_spec (Player.lives p) 0) as [Hl|Hl]; [by eapply tc_dead|].
  destruct (negb (Nat.eqb (String.length (lower ch)) 1)
            || negb (str_in (lower ch) ascii_lowercase)) eqn:Hk.
  { eapply tc_invalid; [done..|]. intros Hs. apply key_check in Hs. congruence. }
  apply key_check in Hk as (c & Hch & Hc). rewrite Hch.
  destruct (Game.current_word p g) as [[wid w]|] eqn:Hw.
  - destruct (bool_decide (Word.owner_sid w = Some sid)) eqn:Ho; cbn [andb].
    + apply bool_decide_eq_true in Ho.
      destruct (head_is (String c EmptyString) (Word.remaining w)) eqn:Hh.
      * apply head_is_single in Hh as [r Hr]. cbv zeta.
        destruct (bool_decide
                    (Word.remaining (Game.advance_word (String c EmptyString) w)
                     = EmptyString)) eqn:Hd.
        -- apply bool_decide_eq_true in Hd. simpl in Hd. rewrite Hr in Hd.
           simpl in Hd. subst r. by eapply tc_completed.
        -- apply bool_decide_eq_false in Hd. eapply tc_progress; [done..|].
           intros ->. apply Hd. simpl. by rewrite Hr.
      * eapply tc_wrong_key; [done..|]. right. intros r Hr.
        assert (head_is (String c EmptyString) (Word.remaining w) = true) as Ht
          by (apply head_is_single; eauto).
        congruence.
    + apply bool_decide_eq_false in Ho. eapply tc_wrong_key; [done..|]. by left.
  - destruct (Game.lock_scan sid (String c EmptyString) (Game.words g))
      as [[ws w']|] eqn:Hs; simpl.
    + by eapply tc_lock.
    + by eapply tc_no_match.
Qed.

Lemma lock_scan_Some sid ch (ws : list (string * Word.t)) :
  NoDup ws.*1 →
  ∀ ws' w', Game.lock_scan sid ch ws = Some (ws', w') →
    ∃ k w, dict_get k ws = Some w ∧ Game.lockable ch w = true ∧
           w' = Game.lock_word sid ch w ∧ ws' = dict_set k w' ws.
Proof.
  induction ws as [|[k w] ws IH]; csimpl; [done|].
  rewrite NoDup_cons. intros [Hk Hnd] ws' w'.
  destruct (Game.lockable ch w) eqn:Hl.
  - intros [= <- <-]. exists k, w. by rewrite !decide_True.
  - destruct (Game.lock_scan sid ch ws) as [[ws1 w1]|] eqn:Hs; [|done].
    intros [= <- <-]. destruct (IH Hnd _ _ eq_refl) as (k1 & w0 & Hg & Hl1 & -> & ->).
    exists k1, w0. assert (k1 ≠ k) as Hne.
    { intros ->. apply Hk. apply dict_get_elem_of in Hg.
      by apply (list_elem_of_fmap_2 fst _ (k, w0)). }
    by rewrite !decide_False.
Qed.


(** ** The invariant of a match *)

Lemma append_nil (s : string) : (EmptyString ++ s)%string = s.
Proof. reflexivity. Qed.

Lemma append_cons a (s t : string) :
  (String a s ++ t)%string = String a (s ++ t)%string.
Proof. reflexivity. Qed.

Lemma append_snoc s c r :
  ((s ++ String c EmptyString) ++ r)%string = (s ++ String c r)%string.
Proof.
  induction s as [|a s IH]; [done|]. by rewrite !append_cons, IH.
Qed.

Lemma current_word_Some p g wid w :
  Game.current_word p g = Some (wid, w) ↔
  Player.current_word_id p = Some wid ∧ wid ≠ EmptyString ∧
  dict_get wid (Game.words g) = Some w.
Proof.
  unfold Game.current_word. destruct (Player.current_word_id p) as [k|].
  - case_bool_decide as Hk.
    + split; [done|]. intros ([= ->] & ? & _). done.
    + destruct (dict_get k (Game.words g)) as [w0|] eqn:Hg.
      * split; [by intros [= -> ->]|]. intros ([= ->] & _ & Hw). congruence.
      * split; [done|]. intros ([= ->] & _ & Hw). congruence.
  - split; [done|]. by intros [? _].
Qed.

Lemma current_word_None p g k w :
  Game.current_word p g = None → Player.current_word_id p = Some k →
  k ≠ EmptyString → dict_get k (Game.words g) = Some w → False.
Proof.
  intros Hn Hk Hne Hg.
  assert (Game.current_word p g = Some (k, w)) as Hs
    by by apply current_word_Some.
  congruence.
Qed.

Lemma word_inv_players ps ps' k w :
  word_inv ps k w →
  (∀ sid p, ps !! sid = Some p → Player.current_word_id p = Some k →
            ∃ p', ps' !! sid = Some p' ∧ Player.current_word_id p' = Some k) →
  word_inv ps' k w.
Proof.
  intros (Hid & Hk & Htext & Hst) Hps. split_and!; [done..|].
  destruct (Word.status w); try done.
  destruct Hst as (sid & p & Ho & Hsid & Hp & Hc).
  destruct (Hps _ _ Hp Hc) as (p' & Hp' & Hc'). by exists sid, p'.
Qed.

Lemma word_inv_status ps k w :
  word_inv ps k w → Word.status w = falling ∨ Word.status w = locked.
Proof. intros (_ & _ & _ & Hst). destruct (Word.status w); auto; done. Qed.

Lemma word_inv_owner ps k w sid :
  word_inv ps k w → Word.owner_sid w = Some sid →
  Word.status w = locked ∧ sid ≠ EmptyString ∧
  ∃ p, ps !! sid = Some p ∧ Player.current_word_id p = Some k.
Proof.
  intros (_ & _ & _ & Hst) Ho. destruct (Word.status w); try done.
  - destruct Hst as [Hn _]. congruence.
  - destruct Hst as (sid' & p & Ho' & Hsid & Hp & Hc).
    assert (sid' = sid) as -> by congruence. eauto.
Qed.

Lemma inv_paired room words_list sid1 u1 sid2 u2 :
  sid1 ≠ EmptyString → sid2 ≠ EmptyString →
  game_inv (Game.paired room words_list sid1 u1 sid2 u2).
Proof.
  intros H1 H2. split; simpl.
  - done.
  - apply NoDup_nil_2.
  - intros sid p. rewrite lookup_insert. case_decide as Hd.
    + intros [= <-]. subst. split; [done|]. by unfold PLAYER_LIVES.
    + rewrite lookup_insert. case_decide as Hd'; [|by rewrite lookup_empty].
      intros [= <-]. subst. split; [done|]. by unfold PLAYER_LIVES.
Qed.

Lemma inv_client_ready sid g : game_inv g → game_inv (Game.client_ready sid g).
Proof.
  intros [Hw Hk Hp]. unfold Game.client_ready.
  destruct (Game.players g !! sid) as [p|] eqn:Hs; [|done].
  split; simpl; [|done|].
  - intros k w Hg. eapply word_inv_players; [by apply Hw|].
    intros sid' p' Hp' Hc. destruct (decide (sid = sid')) as [->|Hne].
    + rewrite lookup_insert_eq. eexists; split; [done|].
      by assert (p' = p) as -> by congruence.
    + rewrite lookup_insert_ne by done. eauto.
  - intros sid' p'. rewrite lookup_insert. case_decide as Hd; [|by apply Hp].
    intros [= <-]. subst. by apply Hp in Hs.
Qed.

Lemma inv_spawn d g g' w :
  game_inv g → Game.spawn_word d g = Some (g', w) → game_inv g'.
Proof.
  intros [Hw Hk Hp]. unfold Game.spawn_word.
  destruct (Game._choose_unique_text (Game.d_choice d) g) as [text|]; [|done].
  intros [= <- <-]. split; simpl; [|by apply dict_set_NoDup|done].
  intros k w. set (wid := ("w_" ++ _)%string).
  destruct (decide (wid = k)) as [<-|Hne].
  - rewrite dict_get_set_eq. intros [= <-]. by split_and!.
  - rewrite dict_get_set_ne by done. apply Hw.
Qed.

Lemma inv_words_crossing g k w :
  game_inv g → dict_get k (Game.words g) = Some w → crosses w = true →
  k ∈ missed_ids (Game.words g).
Proof.
  intros [Hw _ _] Hg Hc. destruct (Hw _ _ Hg) as (Hid & _).
  rewrite <- Hid. eapply missed_ids_elem_of; [|done].
  by apply dict_get_elem_of.
Qed.

Lemma inv_missed_ids g k :
  game_inv g → k ∈ missed_ids (Game.words g) →
  ∃ w, dict_get k (Game.words g) = Some w ∧ crosses w = true.
Proof.
  intros [Hw Hk _] Hin.
  apply elem_of_missed_ids in Hin as (k' & w & Hin & Hc & Hid).
  apply elem_of_dict_get in Hin; [|done].
  destruct (Hw _ _ Hin) as (Hid' & _). exists w. split; [congruence|done].
Qed.

Lemma ticked_not_crossing ps k w :
  word_inv ps k w → crosses w = false → ticked w = advanced w.
Proof.
  intros Hi Hc. unfold ticked. rewrite Hc.
  by destruct (word_inv_status _ _ _ Hi) as [-> | ->].
Qed.

Lemma inv_tick g : game_inv g → game_inv (Game.tick g).
Proof.
  intros Hinv. pose proof Hinv as [Hw Hk Hp]. split.
  - intros k w'. rewrite tick_get. case_decide as Hin; [done|].
    destruct (dict_get k (Game.words g)) as [w|] eqn:Hg; [|done].
    intros [= <-]. specialize (Hw _ _ Hg).
    assert (crosses w = false) as Hc.
    { destruct (crosses w) eqn:Hc; [|done].
      exfalso. apply Hin. by eapply inv_words_crossing. }
    rewrite (ticked_not_crossing _ _ _ Hw Hc).
    eapply (word_inv_players (Game.players g)).
    + destruct Hw as (? & ? & ? & Hst). split_and!; [done..|].
      simpl. by destruct (Word.status w).
    + intros sid p Hs Hcur. exists (missed_by (missed_ids (Game.words g)) p).
      rewrite tick_players, Hs. split; [done|].
      by apply missed_by_current_keep.
  - rewrite tick_unfold. apply despawn_all_keys. simpl. by rewrite keys_ticked.
  - intros sid p'. rewrite tick_players.
    destruct (Game.players g !! sid) as [p|] eqn:Hs; [|done].
    intros [= <-]. destruct (Hp _ _ Hs) as [Hsid Hl]. split; [done|].
    rewrite missed_by_lives by done. lia.
Qed.

Lemma inv_type_char sid ch g :
  game_inv g → game_inv (Game.type_char sid ch g).1.
Proof.
  intros Hinv. pose proof Hinv as [Hw Hk Hp].
  destruct (type_char_cases sid ch g)
    as [ | | |p c wid w r Hs Hl Hch Hc Hcur Ho Hr Hne w'
        |p c wid w Hs Hl Hch Hc Hcur Ho Hr w' p1 p2 p' g'
        |p c wid w Hs Hl Hch Hc Hcur Hbad
        |p c ws w' Hs Hl Hch Hc Hcur Hscan p'
        |p c Hs Hl Hch Hc Hcur Hscan]; try done.
  - (* progress on the current word *)
    apply current_word_Some in Hcur as (Hcid & Hwid & Hg).
    pose proof (Hw _ _ Hg) as Hwi.
    destruct (word_inv_owner _ _ _ _ Hwi Ho) as (Hst & Hsid & _).
    split; simpl; [|by apply dict_set_NoDup|].
    + intros k w0. destruct (decide (wid = k)) as [<-|Hnk].
      * rewrite dict_get_set_eq. intros [= <-].
        destruct Hwi as (Hid & _ & Htext & _). subst w'.
        split_and!; simpl; [done..| |].
        -- rewrite Hr in Htext |- *. simpl. by rewrite append_snoc.
        -- rewrite Hst. exists sid, (Game.award_char p).
           by rewrite lookup_insert_eq.
      * rewrite dict_get_set_ne by done. intros Hg0.
        eapply word_inv_players; [by apply Hw|].
        intros sid' p0 Hs0 Hc0. destruct (decide (sid = sid')) as [<-|Hns].
        -- rewrite lookup_insert_eq. eexists; split; [done|].
           assert (p0 = p) as -> by congruence. done.
        -- rewrite lookup_insert_ne by done. eauto.
    + intros sid' p0. rewrite lookup_insert. case_decide as Hd; [|by apply Hp].
      intros [= <-]. subst. by apply Hp in Hs.
  - (* completion *)
    apply current_word_Some in Hcur as (Hcid & Hwid & Hg).
    pose proof (Hw _ _ Hg) as Hwi.
    assert (Word.id w' = wid) as Hid by (by destruct Hwi as (? & _)).
    subst g'. rewrite Hid. split.
    + intros k w0. simpl. rewrite despawn_words. simpl.
      destruct (decide (wid = k)) as [<-|Hnk]; [by rewrite dict_get_del_eq|].
      rewrite dict_get_del_ne, dict_get_set_ne by done. intros Hg0.
      eapply word_inv_players; [by apply Hw|].
      intros sid' p0 Hs0 Hc0. rewrite despawn_players. simpl.
      destruct (decide (sid = sid')) as [<-|Hns].
      * assert (p0 = p) as -> by congruence. congruence.
      * rewrite lookup_insert_ne by done. eauto.
    + simpl. rewrite despawn_words. simpl.
      by apply dict_del_NoDup, dict_set_NoDup.
    + intros sid' p0. simpl. rewrite despawn_players. simpl.
      rewrite lookup_insert. case_decide as Hd; [|by apply Hp].
      intros [= <-]. subst. by apply Hp in Hs.
  - (* wrong key on the current word *)
    split; simpl; [|done|].
    + intros k w0 Hg0. eapply word_inv_players; [by apply Hw|].
      intros sid' p0 Hs0 Hc0. destruct (decide (sid = sid')) as [<-|Hns].
      * rewrite lookup_insert_eq. eexists; split; [done|].
        assert (p0 = p) as -> by congruence. done.
      * rewrite lookup_insert_ne by done. eauto.
    + intros sid' p0. rewrite lookup_insert. case_decide as Hd; [|by apply Hp].
      intros [= <-]. subst. by apply Hp in Hs.
  - (* a word is locked *)
    apply lock_scan_Some in Hscan as (k0 & w0 & Hg0 & Hlk & -> & ->); [|done].
    pose proof (Hw _ _ Hg0) as Hwi.
    unfold Game.lockable in Hlk.
    apply andb_true_iff in Hlk as [Hlk Hpre].
    apply andb_true_iff in Hlk as [Hfall _].
    apply bool_decide_eq_true in Hfall.
    apply prefix_single in Hpre as [r Hr].
    assert (Word.id (Game.lock_word sid (String c EmptyString) w0) = k0) as Hid
      by (by destruct Hwi as (? & _)).
    subst p'. rewrite Hid. destruct (Hp _ _ Hs) as [Hsid Hlives].
    split; simpl; [|by apply dict_set_NoDup|].
    + intros k w1. destruct (decide (k0 = k)) as [<-|Hnk].
      * rewrite dict_get_set_eq. intros [= <-].
        destruct Hwi as (_ & Hk0 & Htext & Hst). rewrite Hfall in Hst.
        destruct Hst as [_ Hty]. split_and!; [done..| |].
        -- simpl. rewrite <- Htext, Hty, Hr. done.
        -- simpl. eexists sid, _. rewrite lookup_insert_eq. done.
      * rewrite dict_get_set_ne by done. intros Hg1.
        eapply word_inv_players; [by apply Hw|].
        intros sid' p0 Hs0 Hc0. destruct (decide (sid = sid')) as [<-|Hns].
        -- assert (p0 = p) as -> by congruence. exfalso.
           destruct (Hw _ _ Hg1) as (_ & Hkne & _).
           by eapply current_word_None.
        -- rewrite lookup_insert_ne by done. eauto.
    + intros sid' p0. rewrite lookup_insert. case_decide as Hd; [|by apply Hp].
      intros [= <-]. subst. done.
  - (* no word matches *)
    split; simpl; [|done|].
    + intros k w0 Hg0. eapply word_inv_players; [by apply Hw|].
      intros sid' p0 Hs0 Hc0. destruct (decide (sid = sid')) as [<-|Hns].
      * rewrite lookup_insert_eq. eexists; split; [done|].
        assert (p0 = p) as -> by congruence. done.
      * rewrite lookup_insert_ne by done. eauto.
    + intros sid' p0. rewrite lookup_insert. case_decide as Hd; [|by apply Hp].
      intros [= <-]. subst. by apply Hp in Hs.
Qed.

Lemma inv_step g g' : game_inv g → step g g' → game_inv g'.
Proof.
  intros Hinv Hs. destruct Hs;
    eauto using inv_client_ready, inv_spawn, inv_tick, inv_type_char.
Qed.

Lemma reachable_inv g : reachable g → game_inv g.
Proof.
  induction 1 as [room wl sid1 u1 sid2 u2 H1 H2|g g' Hr IH Hs].
  - by apply inv_paired.
  - by eapply inv_step.
Qed.

(** ** The scenario *)

Lemma scenario_start_reachable : reachable scenario_start.
Proof. by apply reach_paired. Qed.

Lemma scenario_spawned_reachable : reachable scenario_spawned.
Proof.
  eapply reach_step; [apply scenario_start_reachable|].
  eapply (step_spawn scenario_draws). reflexivity.
Qed.

Lemma scenario_locked_reachable : reachable scenario_locked.
Proof.
  eapply reach_step; [apply scenario_spawned_reachable|]. apply step_type.
Qed.

Lemma reachable_ticks n g : reachable g → reachable (Nat.iter n Game.tick g).
Proof.
  intros Hr. induction n as [|n IH]; [done|]. simpl.
  eapply reach_step; [exact IH|apply step_tick].
Qed.

Lemma reachable_spawned d g : reachable g → reachable (spawned d g).
Proof.
  intros Hr. unfold spawned.
  destruct (Game.spawn_word d g) as [[g' w]|] eqn:Hsp; [|done].
  eapply reach_step; [exact Hr|]. by eapply step_spawn.
Qed.

Lemma star_locked_reachable : reachable star_locked.
Proof.
  unfold star_locked. eapply reach_step; [|apply step_type].
  apply reachable_spawned, reachable_ticks.
  do 3 apply reachable_spawned. by apply reach_paired.
Qed.

Lemma out_of_lives_reachable : reachable out_of_lives.
Proof. eapply reach_step; [apply star_locked_reachable|apply step_tick]. Qed.


(** The scenario of the specification, step by step: P1 types "r" and
    locks "rocket" with "ocket" left; P2 types "r" and gets [bad_key]; P1
    types "ocket", the last key completes the word, and P1's score is 40. *)
Example scenario_rocket :
  (∃ w, (Game.type_char "P1" "r" scenario_spawned).2 = Progress w
        ∧ Word.text w = "rocket" ∧ Word.status w = locked
        ∧ Word.owner_sid w = Some "P1" ∧ Word.remaining w = "ocket")
  ∧ (Game.type_char "P2" "r" scenario_locked).2 = BadKey
  ∧ (∃ w, last (Game.type_chars "P1" (keys_of "ocket") scenario_locked).2
          = Some (Completed w "P1"))
  ∧ Player.score <$>
      Game.players (Game.type_chars "P1" (keys_of "ocket") scenario_locked).1
        !! "P1" = Some 40.
Proof.
  split_and!.
  - eexists. vm_compute. split_and!; reflexivity.
  - reflexivity.
  - eexists. vm_compute. reflexivity.
  - reflexivity.
Qed.

(** ** Scores *)

Lemma type_char_score sid ch g sid0 p :
  Game.players g !! sid0 = Some p →
  ∃ p', Game.players (Game.type_char sid ch g).1 !! sid0 = Some p'
        ∧ Player.score p ≤ Player.score p'.
Proof.
  intros Hp0.
  assert (∀ (q p0 : Player.t) g0,
            Game.players g0 = Game.players g →
            Game.players g !! sid = Some p0 →
            Player.score p0 ≤ Player.score q →
            ∃ p', <[sid := q]> (Game.players g0) !! sid0 = Some p'
                  ∧ Player.score p ≤ Player.score p') as Hset.
  { intros q p0 g0 -> Hs Hle. destruct (decide (sid = sid0)) as [<-|Hne].
    - rewrite lookup_insert_eq. exists q. split; [done|].
      assert (p0 = p) as -> by congruence. done.
    - rewrite lookup_insert_ne by done. exists p. split; [done|lia]. }
  destruct (type_char_cases sid ch g)
    as [ | | | |p1 c wid w Hs Hl Hch Hc Hcur Ho Hr w' q1 q2 q g'| | | ]; simpl;
    try (exists p; split; [done|lia]).
  - eapply Hset; [done..|]. simpl. unfold SCORE_PER_CHAR. lia.
  - eapply Hset; [subst g'; by rewrite despawn_players|done|].
    simpl. unfold SCORE_PER_CHAR, WORD_BONUS. lia.
  - eapply Hset; [done..|]. simpl. lia.
  - eapply Hset; [done..|]. simpl. unfold SCORE_PER_CHAR. lia.
  - eapply Hset; [done..|]. simpl. lia.
Qed.

Lemma step_score g g' sid p :
  step g g' → Game.players g !! sid = Some p →
  ∃ p', Game.players g' !! sid = Some p' ∧ Player.score p ≤ Player.score p'.
Proof.
  intros Hs Hp. destruct Hs as [sid0 g|d g g' w Hsp|g|sid0 ch g].
  - unfold Game.client_ready.
    destruct (Game.players g !! sid0) as [p0|] eqn:Hp0; simpl.
    + destruct (decide (sid0 = sid)) as [->|Hne].
      * rewrite lookup_insert_eq. eexists; split; [done|].
        assert (p0 = p) as -> by congruence. simpl. lia.
      * rewrite lookup_insert_ne by done. exists p. split; [done|lia].
    + exists p. split; [done|lia].
  - unfold Game.spawn_word in Hsp.
    destruct (Game._choose_unique_text _ g); [|done].
    injection Hsp as <- <-. exists p. split; [done|lia].
  - rewrite tick_players, Hp. eexists; split; [done|].
    rewrite missed_by_score. lia.
  - by apply type_char_score.
Qed.

(** C10. A player's score never goes down: whatever the operations of the
    match between two states (keystrokes of any player with any outcome,
    ticks with or without misses, spawns, ready marks), a player of the
    first state is a player of the second with a score at least as high. *)
Theorem score_never_decreases g g' sid p :
  rtc step g g' → Game.players g !! sid = Some p →
  ∃ p', Game.players g' !! sid = Some p' ∧ Player.score p ≤ Player.score p'.
Proof.
  intros Hsteps. revert p. induction Hsteps as [g|g g1 g' Hs _ IH]; intros p Hp.
  - exists p. split; [done|lia].
  - destruct (step_score _ _ _ _ Hs Hp) as (p1 & Hp1 & Hle1).
    destruct (IH _ Hp1) as (p' & Hp' & Hle'). exists p'. split; [done|lia].
Qed.

Lemma score_never_decreases_witness :
  ∃ p', Game.players (Game.tick (Game.type_char "P2" "x" scenario_locked).1)
          !! "P1" = Some p'
        ∧ 5 ≤ Player.score p'.
Proof.
  apply (score_never_decreases scenario_locked _ "P1"
           (Player.mk "P1" "alice" (255, 120, 120) 5 3 1 (Some "w_1000_7") false)).
  - eapply rtc_l; [apply step_type|]. eapply rtc_l; [apply step_tick|].
    apply rtc_refl.
  - reflexivity.
Defined.

(** ** Ignored keystrokes *)

(** C4 as the specification words it fails on an uppercase letter: "R" is
    not a lowercase letter, and [type_char] lowercases it and locks
    "rocket" with it. *)
Lemma noop_uppercase_counterexample :
  ¬ noop_iff_as_typed "P1" "R" scenario_spawned.
Proof.
  unfold noop_iff_as_typed. intros [_ Hback].
  assert ((Game.type_char "P1" "R" scenario_spawned).2 = Noop) as Habs.
  { apply Hback. right. right. intros (c & [= <-] & Hc). discriminate Hc. }
  vm_compute in Habs. discriminate Habs.
Qed.

(** C4, amended. In a match, [type_char] returns [noop] exactly when the
    player is unknown, has 0 lives, or the typed string, once lowercased, is
    not one lowercase letter; and a [noop] leaves the whole game as it
    was. *)
Theorem noop_iff g sid ch :
  reachable g →
  ((Game.type_char sid ch g).2 = Noop ↔
   Game.players g !! sid = None
   ∨ (∃ p, Game.players g !! sid = Some p ∧ Player.lives p = 0)
   ∨ ¬ single_lowercase (lower ch))
  ∧ ((Game.type_char sid ch g).2 = Noop → (Game.type_char sid ch g).1 = g).
Proof.
  intros Hr. apply reachable_inv in Hr as [_ _ Hp].
  assert (∀ p c, Game.players g !! sid = Some p → 0 < Player.lives p →
                 lower ch = String c EmptyString →
                 is_ascii_lowercase c = true →
                 ¬ (Game.players g !! sid = None
                    ∨ (∃ p, Game.players g !! sid = Some p ∧ Player.lives p = 0)
                    ∨ ¬ single_lowercase (lower ch))) as Hlive.
  { intros p c Hs Hl Hch Hc [Hn|[(p' & Hs' & Hl')|Hbad]].
    - congruence.
    - assert (p' = p) as -> by congruence. lia.
    - apply Hbad. by exists c. }
  destruct (type_char_cases sid ch g) as [Hs|p Hs Hl|p Hs Hl Hbad| | | | | ];
    simpl; try (split; [split; [done|]; intros Hc; exfalso; by eapply Hlive|done]).
  - split; [|done]. split; [|done]. by left.
  - split; [|done]. split; [|done]. intros _. right. left. exists p.
    split; [done|]. apply Hp in Hs. lia.
  - split; [|done]. split; [|done]. intros _. by right; right.
Qed.

Lemma noop_iff_witness :
  (Game.type_char "P1" "rr" scenario_spawned).2 = Noop
  ∧ (Game.type_char "P1" "rr" scenario_spawned).1 = scenario_spawned.
Proof.
  destruct (noop_iff scenario_spawned "P1" "rr" scenario_spawned_reachable)
    as [Hiff Hsame].
  assert ((Game.type_char "P1" "rr" scenario_spawned).2 = Noop) as Hn.
  { apply Hiff. right. right. intros (c & Hc & _). discriminate Hc. }
  split; [exact Hn|exact (Hsame Hn)].
Defined.

(** ** Wrong keys *)

(** C6 as the specification words it fails for an owner at 0 lives.  In
    [out_of_lives] P1 owns "star", locked with "tar" left, and "x" is not
    its next letter; the guard on the lives answers first and [type_char]
    returns [noop], not [bad_key]. *)
Lemma wrong_key_dead_owner_counterexample :
  ¬ wrong_key_as_stated out_of_lives "P1" "x".
Proof.
  intros Hclaim.
  specialize (Hclaim out_of_lives_reachable
                (Player.mk "P1" "alice" (255, 120, 120) 5 0 0
                           (Some "w_1003_7") false)
                "w_1003_7"
                (Word.mk "w_1003_7" "star" 100
                         (-40 + (WORD_SPEED_BASE + 0.5 * WORD_SPEED_RAND))%float
                         (WORD_SPEED_BASE + 0.5 * WORD_SPEED_RAND)%float
                         locked (Some "P1") "s" "tar")).
  apply (f_equal snd) in Hclaim.
  - vm_compute in Hclaim. discriminate Hclaim.
  - vm_compute. reflexivity.
  - vm_compute. reflexivity.
  - reflexivity.
  - reflexivity.
  - exists "x"%char. split; reflexivity.
  - intros r Hr. discriminate Hr.
Qed.

(** C6, amended. A player with lives left who owns a locked word types a
    letter that is not the first character of what remains of that word:
    [type_char] returns [bad_key], and the game it returns is the game
    before with that player's streak at zero.  The words (status, owner,
    typed prefix and remaining suffix of the locked word included), the
    other players, and the player's score, lives and current word are what
    they were. *)
Theorem wrong_key_keeps_lock g sid p wid w ch :
  reachable g →
  Game.players g !! sid = Some p → 0 < Player.lives p →
  dict_get wid (Game.words g) = Some w →
  Word.owner_sid w = Some sid → Word.status w = locked →
  single_lowercase (lower ch) →
  (∀ r, Word.remaining w ≠ (lower ch ++ r)%string) →
  Game.type_char sid ch g
  = (Game.set_players (<[sid := Player.set_streak 0 p]> (Game.players g)) g,
     BadKey).
Proof.
  intros Hr Hs Hl Hg Ho Hst (c & Hch & Hc) Hmis.
  apply reachable_inv in Hr as [Hw _ _].
  destruct (Hw _ _ Hg) as (_ & Hwid & _).
  assert (Player.current_word_id p = Some wid) as Hcur.
  { destruct (word_inv_owner _ _ _ _ (Hw _ _ Hg) Ho) as (_ & _ & p' & Hs' & Hcur).
    congruence. }
  assert (Game.current_word p g = Some (wid, w)) as Hcw
    by by apply current_word_Some.
  unfold Game.type_char. rewrite Hs.
  destruct (Z.leb_spec (Player.lives p) 0) as [?|_]; [lia|].
  assert (negb (Nat.eqb (String.length (lower ch)) 1)
          || negb (str_in (lower ch) ascii_lowercase) = false) as ->
    by (apply key_check; by exists c).
  rewrite Hcw.
  assert (head_is (lower ch) (Word.remaining w) = false) as ->.
  { destruct (head_is (lower ch) (Word.remaining w)) eqn:Hh; [|done].
    rewrite Hch in Hh. apply head_is_single in Hh as [r Hrem].
    exfalso. apply (Hmis r). by rewrite Hch. }
  by rewrite andb_false_r.
Qed.

Lemma wrong_key_keeps_lock_witness :
  Game.type_char "P1" "x" scenario_locked
  = (Game.set_players
       (<["P1" := Player.set_streak 0
                    (Player.mk "P1" "alice" (255, 120, 120) 5 3 1
                               (Some "w_1000_7") false)]>
          (Game.players scenario_locked)) scenario_locked,
     BadKey).
Proof.
  apply (wrong_key_keeps_lock scenario_locked "P1" _ "w_1000_7"
           (Word.mk "w_1000_7" "rocket" 100 (-40)
                    (WORD_SPEED_BASE + 0.5 * WORD_SPEED_RAND)%float
                    locked (Some "P1") "r" "ocket")).
  - apply scenario_locked_reachable.
  - reflexivity.
  - reflexivity.
  - reflexivity.
  - reflexivity.
  - reflexivity.
  - exists "x"%char. split; reflexivity.
  - intros r Hr. discriminate Hr.
Defined.

(** ** Completing a word *)

Lemma lower_single c :
  is_ascii_lowercase c = true → lower (String c EmptyString) = String c EmptyString.
Proof. intros Hc. simpl. by rewrite lower_lowercase. Qed.

Lemma type_char_current sid c g p wid w r :
  Game.players g !! sid = Some p → 0 < Player.lives p →
  is_ascii_lowercase c = true →
  Game.current_word p g = Some (wid, w) →
  Word.owner_sid w = Some sid → Word.remaining w = String c r →
  let w' := Game.advance_word (String c EmptyString) w in
  Game.type_char sid (String c EmptyString) g =
  if bool_decide (r = EmptyString) then
    let wc := Word.set_status completed w' in
    let p' := Game.award_char p in
    let p' := Player.set_score (Player.score p' + WORD_BONUS) p' in
    let g' := Game._despawn (Word.id wc)
                (Game.set_words (dict_set wid wc (Game.words g)) g) in
    (Game.set_players
       (<[sid := Player.set_current_word_id None p']> (Game.players g')) g',
     Completed wc sid)
  else
    (Game.set_players (<[sid := Game.award_char p]> (Game.players g))
       (Game.set_words (dict_set wid w' (Game.words g)) g),
     Progress w').
Proof.
  intros Hs Hl Hc Hcw Ho Hr w'. unfold Game.type_char. rewrite Hs.
  destruct (Z.leb_spec (Player.lives p) 0) as [?|_]; [lia|].
  rewrite (lower_single c Hc).
  assert (negb (Nat.eqb (String.length (String c EmptyString)) 1)
          || negb (str_in (String c EmptyString) ascii_lowercase) = false) as ->
    by (apply key_check; by exists c).
  rewrite Hcw, (bool_decide_eq_true_2 _ Ho).
  assert (head_is (String c EmptyString) (Word.remaining w) = true) as ->
    by (apply head_is_single; eauto).
  cbn [andb]. cbv zeta. fold w'.
  assert (Word.remaining w' = r) as -> by (subst w'; simpl; by rewrite Hr).
  done.
Qed.

Lemma type_rest sid :
  ∀ r g p wid w,
    Game.players g !! sid = Some p → 0 < Player.lives p →
    Player.current_word_id p = Some wid → wid ≠ EmptyString →
    dict_get wid (Game.words g) = Some w → Word.id w = wid →
    Word.owner_sid w = Some sid →
    Word.remaining w = r → r ≠ EmptyString → all_lowercase r = true →
    ∃ g' os w' p',
      Game.type_chars sid (keys_of r) g = (g', os)
      ∧ last os = Some (Completed w' sid)
      ∧ Word.id w' = wid ∧ Word.text w' = Word.text w
      ∧ Game.players g' !! sid = Some p'
      ∧ Player.score p'
        = Player.score p + Z.of_nat (String.length r) * SCORE_PER_CHAR
          + WORD_BONUS
      ∧ dict_get wid (Game.words g') = None.
Proof.
  induction r as [|c r IH]; intros g p wid w Hs Hl Hcur Hwid Hg Hid Ho Hr Hne Hlow;
    [done|].
  apply andb_true_iff in Hlow as [Hc Hlow].
  assert (Game.current_word p g = Some (wid, w)) as Hcw
    by by apply current_word_Some.
  cbn [keys_of Game.type_chars].
  rewrite (type_char_current sid c g p wid w r Hs Hl Hc Hcw Ho Hr).
  case_bool_decide as Hend.
  - subst r. cbn [keys_of Game.type_chars]. cbv zeta. eexists _, _, _, _.
    split; [reflexivity|]. split_and!; try done.
    + simpl. rewrite despawn_players. simpl. by rewrite lookup_insert_eq.
    + simpl. unfold SCORE_PER_CHAR, WORD_BONUS. lia.
    + simpl. rewrite despawn_words. simpl. rewrite Hid.
      apply dict_get_del_eq.
  - set (w1 := Game.advance_word (String c EmptyString) w).
    set (g1 := Game.set_players _ _).
    destruct (IH g1 (Game.award_char p) wid w1) as (g' & os & w' & p' & Hty & Hlast & Hid' & Htext & Hp' & Hscore & Hgone); try done.
    + subst g1. simpl. by rewrite lookup_insert_eq.
    + subst g1. simpl. by rewrite dict_get_set_eq.
    + subst w1. simpl. by rewrite Hr.
    + rewrite Hty. exists g', (Progress w1 :: os), w', p'.
      split_and!; try done.
      * destruct os; [done|]. done.
      * rewrite Hscore. simpl Player.score. cbn [String.length].
        rewrite Nat2Z.inj_succ. unfold SCORE_PER_CHAR, WORD_BONUS. lia.
Qed.

(** Completing a word of two letters or more.  A player with lives left
    and no current word types the letters of a word the first of which
    locks it (the word is the first one the lock-acquisition loop accepts
    for that letter): the last key returns [completed], and the player's
    score has grown by the length of the word times [SCORE_PER_CHAR], plus
    [WORD_BONUS]. *)
Lemma complete_word_score g sid p c rest ws w1 :
  reachable g →
  Game.players g !! sid = Some p → 0 < Player.lives p →
  Game.current_word p g = None →
  all_lowercase (String c rest) = true → rest ≠ EmptyString →
  Game.lock_scan sid (String c EmptyString) (Game.words g) = Some (ws, w1) →
  Word.text w1 = String c rest →
  ∃ g' os w' p',
    Game.type_chars sid (keys_of (String c rest)) g = (g', os)
    ∧ last os = Some (Completed w' sid)
    ∧ Word.text w' = String c rest
    ∧ Game.players g' !! sid = Some p'
    ∧ Player.score p'
      = Player.score p
        + Z.of_nat (String.length (String c rest)) * SCORE_PER_CHAR
        + WORD_BONUS.
Proof.
  intros Hr Hs Hl Hcw Hlow Hrest Hscan Htext.
  pose proof (reachable_inv _ Hr) as [Hw Hk Hp].
  pose proof Hlow as Hlow'. apply andb_true_iff in Hlow' as [Hc Hlrest].
  assert (Game.type_char sid (String c EmptyString) g
          = (Game.set_players
               (<[sid := Game.award_char
                           (Player.set_current_word_id (Some (Word.id w1)) p)]>
                  (Game.players g))
               (Game.set_words ws g), Progress w1)) as Hfirst.
  { unfold Game.type_char. rewrite Hs.
    destruct (Z.leb_spec (Player.lives p) 0) as [?|_]; [lia|].
    rewrite (lower_single c Hc).
    assert (negb (Nat.eqb (String.length (String c EmptyString)) 1)
            || negb (str_in (String c EmptyString) ascii_lowercase) = false)
      as -> by (apply key_check; by exists c).
    by rewrite Hcw, Hscan. }
  apply lock_scan_Some in Hscan as (k0 & w0 & Hg0 & Hlk & -> & ->); [|done].
  destruct (Hw _ _ Hg0) as (Hid & Hk0 & Htx & Hst).
  unfold Game.lockable in Hlk.
  apply andb_true_iff in Hlk as [Hlk Hpre].
  apply andb_true_iff in Hlk as [Hfall _].
  apply bool_decide_eq_true in Hfall. rewrite Hfall in Hst.
  destruct Hst as [_ Hty]. rewrite Hty, append_nil in Htx.
  simpl in Htext.
  cbn [keys_of Game.type_chars]. rewrite Hfirst.
  set (w1 := Game.lock_word sid (String c EmptyString) w0) in *.
  set (p1 := Game.award_char _).
  set (g1 := Game.set_players _ _).
  destruct (type_rest sid rest g1 p1 k0 w1)
    as (g' & os & w' & p' & Hty' & Hlast & Hid' & Htext' & Hp' & Hscore & _);
    try done.
  - subst g1. simpl. by rewrite lookup_insert_eq.
  - subst p1 w1. simpl. by rewrite Hid.
  - subst g1. simpl. by rewrite dict_get_set_eq.
  - subst w1. simpl. rewrite Htx, Htext. done.
  - rewrite Hty'. exists g', (Progress w1 :: os), w', p'. split_and!; try done.
    + destruct os; done.
    + by rewrite Htext'.
    + rewrite Hscore. subst p1. simpl Player.score. cbn [String.length].
      rewrite Nat2Z.inj_succ. unfold SCORE_PER_CHAR, WORD_BONUS. lia.
Qed.

(** C2. The one-letter word.  The key that locks the word "a" is also its
    last, and the lock branch of [type_char] does not look at what
    remains: the key returns [progress], the word stays locked with
    nothing left to type, the score is 5 and not 1 × 5 + 10, and no later
    key of the player completes the word. *)
Theorem one_letter_word_not_completed :
  let g1 := (Game.type_char "P1" "a" one_letter_spawned).1 in
  (∃ w, (Game.type_char "P1" "a" one_letter_spawned).2 = Progress w
        ∧ Word.text w = "a" ∧ Word.remaining w = EmptyString
        ∧ Word.status w = locked
        ∧ dict_get (Word.id w) (Game.words g1) = Some w)
  ∧ Player.score <$> Game.players g1 !! "P1" = Some 5
  ∧ ∀ ch, (Game.type_char "P1" ch g1).2 = Noop
          ∨ (Game.type_char "P1" ch g1).2 = BadKey.
Proof.
  intros g1. split_and!.
  - eexists. vm_compute. split_and!; reflexivity.
  - reflexivity.
  - intros ch.
    destruct (type_char_cases "P1" ch g1)
      as [ | | |p c wid w r Hs Hl Hch Hc Hcur Ho Hr Hne w'
          |p c wid w Hs Hl Hch Hc Hcur Ho Hr w' p1 p2 p' g'
          | |p c ws w' Hs Hl Hch Hc Hcur Hscan p'| ]; auto.
    + injection Hs as <-. vm_compute in Hcur. injection Hcur as <- <-.
      discriminate Hr.
    + injection Hs as <-. vm_compute in Hcur. injection Hcur as <- <-.
      discriminate Hr.
    + injection Hs as <-. vm_compute in Hcur. discriminate Hcur.
Qed.

(** ** The word bank *)

(** With no word read from a file, [load_word_bank] returns the built-in
    list. *)
Lemma load_word_bank_default : load_word_bank [] = DEFAULT_WORDS.
Proof. reflexivity. Qed.

(** C9. A game built on an empty word list has no fallback: [spawn_word]
    fails in [rng.choice], whatever is drawn.  [load_word_bank] can return
    the empty list: it falls back to the built-in list before it filters
    the words, so a file whose entries are all rejected (here the single
    entry "123") leaves nothing. *)
Theorem empty_bank_cannot_spawn :
  load_word_bank ["123"] = []
  ∧ ∀ room sid1 u1 sid2 u2 d,
      Game.spawn_word d
        (Game.paired room (load_word_bank ["123"]) sid1 u1 sid2 u2) = None.
Proof. split; [reflexivity|]. intros. reflexivity. Qed.

(** ** Ownership *)

Lemma truthy_Some sid : sid ≠ EmptyString → truthy (Some sid) = true.
Proof. intros Hne. simpl. by rewrite bool_decide_false. Qed.



(** ** Lives *)







(** ** Ownership, again *)




(** ** The status of a word *)

(** Nothing leads out of [completed] and [missed], and nothing leads back
    to [falling]. *)
Lemma status_step_final s s' :
  status_step s s' → s = completed ∨ s = missed → s' = s.
Proof. intros [] [?|?]; done. Qed.

Lemma status_step_falling s s' : status_step s s' → s' = falling → s = falling.
Proof. by intros []. Qed.

(** The body of the loop of [tick] skips a word that is [completed] or
    [missed]. *)
Lemma tick_word_skips w ps missed_now :
  Word.status w = completed ∨ Word.status w = missed →
  Game.tick_word w ps missed_now = (w, ps, missed_now).
Proof. unfold Game.tick_word. by intros [-> | ->]. Qed.

Lemma ticked_status w :
  Word.status (ticked w) = if crosses w then missed else Word.status w.
Proof.
  unfold ticked. destruct (crosses w) eqn:Hc; [done|].
  by destruct (Word.status w) eqn:Hs.
Qed.

Lemma tick_marked_get g k :
  dict_get k (Game.words (Game.tick_marked g).1) = ticked <$> dict_get k (Game.words g).
Proof.
  unfold Game.tick_marked. rewrite tick_scan_spec. simpl. apply dict_get_ticked.
Qed.

(** C7. The status of a word moves one way.  In a match:
    - a spawned word is [falling];
    - the words of the game are [falling] or [locked]: a word that is
      [completed] or [missed] has left the game, out of reach of every
      operation;
    - a keystroke leaves a word of the game in the game, with its status or
      moved from [falling] to [locked], or takes it out of the game as the
      word of a [completed] outcome, moved from [locked] to [completed];
    - the first loop of a tick leaves a word its status or moves it from
      [falling] or [locked] to [missed], and the tick ends with the word in
      the game if and only if it was not moved to [missed]. *)
Theorem status_one_way g :
  reachable g →
  (∀ d g' w, Game.spawn_word d g = Some (g', w) → Word.status w = falling)
  ∧ (∀ k w, dict_get k (Game.words g) = Some w →
            Word.status w = falling ∨ Word.status w = locked)
  ∧ (∀ sid ch k w,
       dict_get k (Game.words g) = Some w →
       (∃ w', dict_get k (Game.words (Game.type_char sid ch g).1) = Some w'
              ∧ status_step (Word.status w) (Word.status w')
              ∧ Word.status w' ≠ completed ∧ Word.status w' ≠ missed)
       ∨ (dict_get k (Game.words (Game.type_char sid ch g).1) = None
          ∧ ∃ w', (Game.type_char sid ch g).2 = Completed w' sid
                  ∧ Word.id w' = k
                  ∧ Word.status w = locked ∧ Word.status w' = completed))
  ∧ (∀ k w,
       dict_get k (Game.words g) = Some w →
       ∃ w', dict_get k (Game.words (Game.tick_marked g).1) = Some w'
             ∧ status_step (Word.status w) (Word.status w')
             ∧ (Word.status w' = Word.status w ∨ Word.status w' = missed)
             ∧ dict_get k (Game.words (Game.tick g))
               = if decide (Word.status w' = missed) then None else Some w').
Proof.
  intros Hr. pose proof (reachable_inv _ Hr) as Hinv.
  pose proof Hinv as [Hw Hk Hp].
  assert (∀ k w, dict_get k (Game.words g) = Some w →
                 Word.status w = falling ∨ Word.status w = locked) as Hlive.
  { intros k w Hg. by eapply word_inv_status, Hw. }
  split_and!; [|done| |].
  - intros d g' w. unfold Game.spawn_word.
    destruct (Game._choose_unique_text (Game.d_choice d) g) as [text|]; [|done].
    by intros [= <- <-].
  - intros sid ch k w Hg.
    pose proof (inv_type_char sid ch g Hinv) as [Hw' _ _].
    destruct (dict_get k (Game.words (Game.type_char sid ch g).1))
      as [w'|] eqn:Hg'.
    + left. exists w'. split; [done|].
      pose proof (word_inv_status _ _ _ (Hw' _ _ Hg')) as Hst'.
      assert (Word.status w' ≠ completed ∧ Word.status w' ≠ missed) as [??]
        by (destruct Hst' as [-> | ->]; done).
      split_and!; [|done..].
      revert Hg'.
      destruct (type_char_cases sid ch g)
        as [ | | |p c wid w0 r Hs Hl Hch Hc Hcur Ho0 Hr0 Hnr w1
            |p c wid w0 Hs Hl Hch Hc Hcur Ho0 Hr0 w1 p1 p2 p' g'
            | |p c ws w1 Hs Hl Hch Hc Hcur Hscan p'| ]; simpl;
        try (intros Hg'; assert (w' = w) as -> by congruence; constructor).
      * apply current_word_Some in Hcur as (_ & _ & Hg0).
        destruct (decide (wid = k)) as [->|Hnk].
        -- rewrite dict_get_set_eq. intros [= <-].
           assert (w0 = w) as -> by congruence. subst w1. simpl. constructor.
        -- rewrite dict_get_set_ne by done. intros Hg'.
           assert (w' = w) as -> by congruence. constructor.
      * subst g'. rewrite despawn_words.
        apply current_word_Some in Hcur as (_ & _ & Hg0).
        assert (Word.id w1 = wid) as -> by (by destruct (Hw _ _ Hg0) as (? & _)).
        simpl. destruct (decide (wid = k)) as [->|Hnk]; [by rewrite dict_get_del_eq|].
        rewrite dict_get_del_ne, dict_get_set_ne by done. intros Hg'.
        assert (w' = w) as -> by congruence. constructor.
      * apply lock_scan_Some in Hscan as (k0 & w0 & Hg0 & Hlk & -> & ->);
          [|done].
        destruct (decide (k0 = k)) as [->|Hnk].
        -- rewrite dict_get_set_eq. intros [= <-].
           assert (w0 = w) as -> by congruence.
           unfold Game.lockable in Hlk.
           apply andb_true_iff in Hlk as [Hlk _].
           apply andb_true_iff in Hlk as [Hfall _].
           apply bool_decide_eq_true in Hfall. rewrite Hfall. simpl.
           constructor.
        -- rewrite dict_get_set_ne by done. intros Hg'.
           assert (w' = w) as -> by congruence. constructor.
    + right. split; [done|]. revert Hg'.
      destruct (type_char_cases sid ch g)
        as [ | | |p c wid w0 r Hs Hl Hch Hc Hcur Ho0 Hr0 Hnr w1
            |p c wid w0 Hs Hl Hch Hc Hcur Ho0 Hr0 w1 p1 p2 p' g'
            | |p c ws w1 Hs Hl Hch Hc Hcur Hscan p'| ]; simpl;
        try congruence.
      * destruct (decide (wid = k)) as [->|Hnk].
        -- by rewrite dict_get_set_eq.
        -- rewrite dict_get_set_ne by done. congruence.
      * subst g'. rewrite despawn_words.
        apply current_word_Some in Hcur as (_ & _ & Hg0).
        pose proof (Hw _ _ Hg0) as Hwi.
        assert (Word.id w1 = wid) as Hid by (by destruct Hwi as (? & _)).
        rewrite Hid. simpl.
        destruct (decide (wid = k)) as [->|Hnk].
        -- intros _. exists w1. assert (w0 = w) as -> by congruence.
           destruct (word_inv_owner _ _ _ _ Hwi Ho0) as (Hst & _).
           by split_and!.
        -- rewrite dict_get_del_ne, dict_get_set_ne by done. congruence.
      * apply lock_scan_Some in Hscan as (k0 & w0 & Hg0 & Hlk & -> & ->);
          [|done].
        destruct (decide (k0 = k)) as [->|Hnk].
        -- by rewrite dict_get_set_eq.
        -- rewrite dict_get_set_ne by done. congruence.
  - intros k w Hg. exists (ticked w).
    rewrite tick_marked_get, Hg, tick_get, Hg, ticked_status.
    pose proof (Hlive _ _ Hg) as Hst.
    split; [done|]. destruct (crosses w) eqn:Hc.
    + split_and!; [destruct Hst as [-> | ->]; constructor|by right|].
      rewrite (decide_True (P := missed = missed)) by done.
      rewrite decide_True; [done|]. by eapply inv_words_crossing.
    + split_and!; [constructor|by left|].
      rewrite (decide_False (P := Word.status w = missed))
        by (destruct Hst as [-> | ->]; done).
      rewrite decide_False; [done|]. intros Hin.
      apply inv_missed_ids in Hin as (w0 & Hg0 & Hc0); [|done]. congruence.
Qed.

Lemma status_one_way_witness :
  ∃ w', dict_get "w_1000_7"
          (Game.words (Game.type_char "P1" "r" scenario_spawned).1) = Some w'
        ∧ status_step falling (Word.status w').
Proof.
  destruct (status_one_way scenario_spawned scenario_spawned_reachable)
    as (_ & _ & Hkey & _).
  destruct (Hkey "P1" "r" "w_1000_7"
              (Word.mk "w_1000_7" "rocket" 100 (-40)
                       (WORD_SPEED_BASE + 0.5 * WORD_SPEED_RAND)%float
                       falling None "" "rocket") eq_refl)
    as [(w' & Hg & Hstep & _)|[Hnone _]].
  - exists w'. split; [exact Hg|exact Hstep].
  - discriminate Hnone.
Defined.

(** ** Typed prefix and remaining suffix *)

(** C8. In a match, the typed prefix of a word of the game followed by its
    remaining suffix is its text (character for character, so also once
    both sides are lowercased); a spawned word has an empty typed prefix
    and its text as remaining suffix; and a keystroke with the outcome
    [progress] or [completed] has moved the first character of the
    remaining suffix of the word it is about to the end of its typed
    prefix, nothing else. *)
Theorem typed_remaining_text g :
  reachable g →
  (∀ k w, dict_get k (Game.words g) = Some w →
          (Word.typed w ++ Word.remaining w)%string = Word.text w
          ∧ lower (Word.typed w ++ Word.remaining w)%string
            = lower (Word.text w))
  ∧ (∀ d g' w, Game.spawn_word d g = Some (g', w) →
               Word.typed w = EmptyString ∧ Word.remaining w = Word.text w
               ∧ dict_get (Word.id w) (Game.words g') = Some w)
  ∧ (∀ sid ch w',
       (Game.type_char sid ch g).2 = Progress w'
       ∨ (∃ s, (Game.type_char sid ch g).2 = Completed w' s) →
       ∃ w c, dict_get (Word.id w') (Game.words g) = Some w
              ∧ lower ch = String c EmptyString
              ∧ Word.remaining w = String c (Word.remaining w')
              ∧ Word.typed w' = (Word.typed w ++ String c EmptyString)%string
              ∧ Word.text w' = Word.text w
              ∧ (Word.typed w' ++ Word.remaining w')%string = Word.text w').
Proof.
  intros Hr. pose proof (reachable_inv _ Hr) as Hinv.
  pose proof Hinv as [Hw Hk Hp]. split_and!.
  - intros k w Hg. destruct (Hw _ _ Hg) as (_ & _ & Htext & _).
    by rewrite Htext.
  - intros d g' w. unfold Game.spawn_word.
    destruct (Game._choose_unique_text (Game.d_choice d) g) as [text|]; [|done].
    intros [= <- <-]. simpl. by rewrite dict_get_set_eq.
  - intros sid ch w'.
    destruct (type_char_cases sid ch g)
      as [ | | |p c wid w0 r Hs Hl Hch Hc Hcur Ho0 Hr0 Hnr w1
          |p c wid w0 Hs Hl Hch Hc Hcur Ho0 Hr0 w1 p1 p2 p' g'
          | |p c ws w1 Hs Hl Hch Hc Hcur Hscan p'| ]; simpl;
      try (by intros [?|[s ?]]).
    + intros [[= <-]|[s [=]]].
      apply current_word_Some in Hcur as (_ & _ & Hg0).
      destruct (Hw _ _ Hg0) as (Hid & _ & Htext & _).
      exists w0, c. subst w1. simpl. rewrite Hid, Hr0. simpl.
      split_and!; try done.
      rewrite Hr0 in Htext. by rewrite append_snoc.
    + intros [[=]|[s [= <- _]]].
      apply current_word_Some in Hcur as (_ & _ & Hg0).
      destruct (Hw _ _ Hg0) as (Hid & _ & Htext & _).
      exists w0, c. subst w1. simpl. rewrite Hid, Hr0. simpl.
      split_and!; try done.
      rewrite Hr0 in Htext. by rewrite append_snoc.
    + intros [[= <-]|[s [=]]].
      apply lock_scan_Some in Hscan as (k0 & w0 & Hg0 & Hlk & -> & _); [|done].
      destruct (Hw _ _ Hg0) as (Hid & _ & Htext & Hst).
      unfold Game.lockable in Hlk.
      apply andb_true_iff in Hlk as [Hlk Hpre].
      apply andb_true_iff in Hlk as [Hfall _].
      apply bool_decide_eq_true in Hfall. rewrite Hfall in Hst.
      destruct Hst as [_ Hty]. apply prefix_single in Hpre as [r Hrem].
      exists w0, c. simpl. rewrite Hid, Hrem, Hty. simpl.
      split_and!; try done.
      by rewrite <- Htext, Hty, Hrem.
Qed.

Lemma typed_remaining_text_witness :
  ("r" ++ "ocket")%string = "rocket"
  ∧ lower ("r" ++ "ocket")%string = lower "rocket".
Proof.
  destruct (typed_remaining_text scenario_locked scenario_locked_reachable)
    as (Hinv & _).
  exact (Hinv "w_1000_7"
           (Word.mk "w_1000_7" "rocket" 100 (-40)
                    (WORD_SPEED_BASE + 0.5 * WORD_SPEED_RAND)%float
                    locked (Some "P1") "r" "ocket") eq_refl).
Defined.

(** ** Misses *)

Lemma tick_marked_missed g : (Game.tick_marked g).2 = missed_ids (Game.words g).
Proof. unfold Game.tick_marked. by rewrite tick_scan_spec. Qed.

Lemma missed_ids_length (ws : list (string * Word.t)) :
  length (missed_ids ws) = length (filter (fun kw => crosses kw.2 = true) ws).
Proof.
  induction ws as [|[k w] ws IH]; [done|]. simpl.
  rewrite filter_cons. simpl. destruct (crosses w) eqn:Hc.
  - rewrite decide_True by done. simpl. by rewrite IH.
  - by rewrite decide_False by done.
Qed.

Lemma ticked_text w : Word.text (ticked w) = Word.text w.
Proof.
  unfold ticked. destruct (crosses w); [done|]. by destruct (Word.status w).
Qed.

(** C3. A tick in a match.  [missed_now] holds the words that reach the
    miss line on this tick, once each.  Each of them is [missed] after the
    first loop and out of the game after the tick (no entry under its id,
    its text out of the active texts), no player has it as current word
    any more, and the current word of its owner is cleared.  Every player
    of the game, owner or not, loses [MISS_LIFE_PENALTY] lives for each of
    these words, down to 0 at most, has a streak of 0 when there is at
    least one, is untouched when there is none, and keeps their score. *)
Theorem tick_miss g :
  reachable g →
  let missed_now := (Game.tick_marked g).2 in
  let n := Z.of_nat (length missed_now) in
  (∀ k, k ∈ missed_now ↔
        ∃ w, dict_get k (Game.words g) = Some w ∧ crosses w = true)
  ∧ length missed_now
    = length (filter (fun kw => crosses kw.2 = true) (Game.words g))
  ∧ (∀ k w,
       dict_get k (Game.words g) = Some w → crosses w = true →
       (∃ w', dict_get k (Game.words (Game.tick_marked g).1) = Some w'
              ∧ Word.status w' = missed)
       ∧ dict_get k (Game.words (Game.tick g)) = None
       ∧ (Word.text w ∉ Game.active_texts (Game.tick g))
       ∧ (∀ sid p', Game.players (Game.tick g) !! sid = Some p' →
                    Player.current_word_id p' ≠ Some k)
       ∧ (∀ sid, Word.owner_sid w = Some sid →
                 ∃ p', Game.players (Game.tick g) !! sid = Some p'
                       ∧ Player.current_word_id p' = None))
  ∧ (∀ sid p,
       Game.players g !! sid = Some p →
       ∃ p', Game.players (Game.tick g) !! sid = Some p'
             ∧ Player.lives p'
               = Z.max 0 (Player.lives p - n * MISS_LIFE_PENALTY)
             ∧ (0 < n → Player.streak p' = 0)
             ∧ (n = 0 → p' = p)
             ∧ Player.score p' = Player.score p).
Proof.
  intros Hr missed_now n. subst n missed_now. rewrite tick_marked_missed.
  pose proof (reachable_inv _ Hr) as Hinv. pose proof Hinv as [Hw Hk Hp].
  split_and!.
  - intros k. split; [by apply inv_missed_ids|].
    intros (w & Hg & Hc). by eapply inv_words_crossing.
  - apply missed_ids_length.
  - intros k w Hg Hc.
    assert (k ∈ missed_ids (Game.words g)) as Hin
      by by eapply inv_words_crossing.
    split_and!.
    + exists (ticked w). rewrite tick_marked_get, Hg, ticked_status, Hc. done.
    + rewrite tick_get. by rewrite decide_True.
    + rewrite tick_unfold, <- (ticked_text w).
      apply (despawn_all_text_gone _ _ k); [done|].
      simpl. by rewrite dict_get_ticked, Hg.
    + intros sid p'. rewrite tick_players.
      destruct (Game.players g !! sid) as [p|]; [|done].
      intros [= <-] Hcur. by apply missed_by_current_Some in Hcur as [_ ?].
    + intros sid Ho.
      destruct (word_inv_owner _ _ _ _ (Hw _ _ Hg) Ho) as (_ & _ & p & Hs & Hcur).
      exists (missed_by (missed_ids (Game.words g)) p).
      rewrite tick_players, Hs. split; [done|].
      destruct (Player.current_word_id
                  (missed_by (missed_ids (Game.words g)) p)) as [k'|] eqn:Hc';
        [|done].
      apply missed_by_current_Some in Hc' as [Hc' Hnot].
      assert (k' = k) as -> by congruence. done.
  - intros sid p Hs. exists (missed_by (missed_ids (Game.words g)) p).
    rewrite tick_players, Hs. destruct (Hp _ _ Hs) as [_ Hl].
    split_and!; [done| | | |].
    + by apply missed_by_lives.
    + intros Hn. apply missed_by_streak. intros Heq. rewrite Heq in Hn.
      simpl in Hn. lia.
    + intros Hn. destruct (missed_ids (Game.words g)); [done|].
      simpl in Hn. lia.
    + apply missed_by_score.
Qed.

Lemma tick_miss_witness :
  ∃ p', Game.players (Game.tick scenario_above_line) !! "P2" = Some p'
        ∧ Player.lives p' = 2 ∧ Player.streak p' = 0.
Proof.
  destruct (tick_miss scenario_above_line
              (reachable_ticks 423 _ scenario_locked_reachable))
    as (_ & _ & _ & Hplayers).
  destruct (Hplayers "P2" (Player.new "P2" "bob" (120, 120, 255)))
    as (p' & Hp' & Hl & Hs & _).
  { vm_compute. reflexivity. }
  exists p'. split; [exact Hp'|]. split.
  - rewrite Hl. vm_compute. reflexivity.
  - apply Hs. vm_compute. reflexivity.
Defined.

(** * More of the prefix directory *)

(** Induction on a node, with the property at hand for every child. *)
Lemma TrieNode_children_ind (P : TrieNode.t → Prop) :
  (∀ children e wt wo pc,
     Forall (fun kc => P kc.2) children →
     P (TrieNode.mk children e wt wo pc)) →
  ∀ node, P node.
Proof.
  intros Hnode. fix IH 1. intros [children e wt wo pc]. apply Hnode.
  induction children as [|[k child] children IHc]; constructor.
  - apply IH.
  - apply IHc.
Qed.

Lemma collect_unfold node :
  Trie._collect node
  = (collect_here node
     ++ (TrieNode.children node ≫= fun kc => Trie._collect kc.2))%list.
Proof.
  destruct node as [children e wt wo pc]. cbn [Trie._collect].
  unfold collect_here, payload. cbn [TrieNode.children TrieNode.is_end_of_word
    TrieNode.word_object TrieNode.word_text]. f_equal.
  - destruct e; [|done]. destruct wo; [done|]. by destruct wt.
  - induction children as [|[k child] children IHc]; [done|].
    rewrite bind_cons. by rewrite <- IHc.
Qed.

Lemma append_empty_r (s : string) : (s ++ EmptyString)%string = s.
Proof. induction s as [|c s IH]; [done|]. by rewrite append_cons, IH. Qed.

Lemma descend_app p :
  ∀ r node, Trie.descend_from (p ++ r)%string node
            = Trie.descend_from p node ≫= Trie.descend_from r.
Proof.
  induction p as [|c p IH]; intros r node; [done|].
  rewrite append_cons. cbn [Trie.descend_from].
  destruct (dict_get c (TrieNode.children node)); [apply IH|done].
Qed.

Lemma payload_inserted a e pc children :
  payload (TrieNode.mk children e (Some (Trie.text_of a)) (Trie.object_of a) pc)
  = Some a.
Proof. by destruct a. Qed.

Lemma insert_from_descend cs :
  ∀ a node, ∃ n, Trie.descend_from cs (Trie.insert_from cs a node) = Some n
                 ∧ TrieNode.is_end_of_word n = true ∧ payload n = Some a.
Proof.
  induction cs as [|ch cs IH]; intros a node.
  - eexists. split; [done|]. split; [done|]. apply payload_inserted.
  - cbn [Trie.insert_from Trie.descend_from TrieNode.children].
    rewrite dict_get_set_eq. apply IH.
Qed.

Lemma collect_descend cs :
  ∀ node n x, Trie.descend_from cs node = Some n →
              x ∈ Trie._collect n → x ∈ Trie._collect node.
Proof.
  induction cs as [|ch cs IH]; intros node n x; cbn [Trie.descend_from].
  - by intros [= ->].
  - destruct (dict_get ch (TrieNode.children node)) as [child|] eqn:Hc; [|done].
    intros Hd Hx. rewrite collect_unfold. apply elem_of_app. right.
    apply list_elem_of_bind. exists (ch, child). split; [by eapply IH|].
    by apply dict_get_elem_of.
Qed.

(** X1. Prefix search finds what was inserted: after [insert(a)], the
    search for any prefix of the text of [a], in any case, returns [a] (the
    object when [a] is one, the string otherwise). *)
Theorem insert_found_by_prefix a tr prefix rest :
  lower (Trie.text_of a) = (lower prefix ++ rest)%string →
  a ∈ Trie.find_words_starting_with prefix (Trie.insert a tr).
Proof.
  intros Htext. unfold Trie.find_words_starting_with, Trie._descend, Trie.insert.
  cbn [Trie.root].
  destruct (insert_from_descend (lower (Trie.text_of a)) a (Trie.root tr))
    as (n & Hd & Hend & Hpay).
  rewrite Htext in Hd at 1. rewrite descend_app in Hd.
  destruct (Trie.descend_from (lower prefix) _) as [m|]; [|done].
  cbn in Hd. eapply collect_descend; [exact Hd|].
  rewrite collect_unfold. apply elem_of_app. left.
  unfold collect_here. rewrite Hend, Hpay. apply list_elem_of_here.
Qed.

Lemma insert_found_by_prefix_witness :
  Trie.AStr "Rocket"
  ∈ Trie.find_words_starting_with "RO"
      (Trie.insert (Trie.AStr "Rocket") (Trie.insert (Trie.AStr "comet") Trie.new)).
Proof. apply (insert_found_by_prefix _ _ "RO" "cket"). reflexivity. Defined.

Lemma terminal_at_bump cs node :
  terminal_at cs
    (TrieNode.mk (TrieNode.children node) (TrieNode.is_end_of_word node)
       (TrieNode.word_text node) (TrieNode.word_object node)
       (TrieNode.prefix_count node + 1))
  = terminal_at cs node.
Proof. destruct node. apply terminal_at_count. Qed.

Lemma terminal_at_new cs : terminal_at cs TrieNode.new = false.
Proof. by destruct cs. Qed.

Lemma terminal_at_cons c r node :
  terminal_at (String c r) node
  = match dict_get c (TrieNode.children node) with
    | Some child => terminal_at r child
    | None => false
    end.
Proof.
  unfold terminal_at. cbn [Trie.descend_from].
  by destruct (dict_get c (TrieNode.children node)).
Qed.

Lemma insert_from_other cs :
  ∀ a node cs', cs' ≠ cs →
    terminal_at cs' (Trie.insert_from cs a node) = terminal_at cs' node.
Proof.
  induction cs as [|ch cs IH]; intros a node cs' Hne.
  - destruct cs' as [|c' cs']; [done|]. done.
  - destruct cs' as [|c' cs']; [done|].
    rewrite !terminal_at_cons. cbn [Trie.insert_from TrieNode.children].
    destruct (decide (ch = c')) as [<-|Hc].
    + rewrite dict_get_set_eq.
      assert (cs' ≠ cs) as Hne' by congruence.
      rewrite IH by done.
      destruct (dict_get ch (TrieNode.children node)) as [child|]; cbn [default].
      * apply terminal_at_bump.
      * rewrite terminal_at_bump. apply terminal_at_new.
    + by rewrite dict_get_set_ne.
Qed.

(** X2. [insert] leaves the other texts as they are: a text that differs
    from the inserted one, case apart, is indexed after [insert] if and
    only if it was before. *)
Theorem insert_keeps_others a tr text :
  lower text ≠ lower (Trie.text_of a) →
  Trie.is_indexed text (Trie.insert a tr) = Trie.is_indexed text tr.
Proof.
  intros Hne. unfold Trie.is_indexed, Trie._descend, Trie.insert. cbn [Trie.root].
  by apply (insert_from_other (lower (Trie.text_of a)) a (Trie.root tr)).
Qed.

Lemma insert_keeps_others_witness :
  Trie.is_indexed "rock" (Trie.insert (Trie.AStr "rocket") Trie.new)
  = Trie.is_indexed "rock" Trie.new.
Proof. apply insert_keeps_others. discriminate. Defined.

Lemma childless_not_terminal cs node :
  TrieNode.is_end_of_word node = false → TrieNode.children node = [] →
  terminal_at cs node = false.
Proof.
  intros He Hc. unfold terminal_at. destruct cs as [|c cs]; cbn; [done|].
  by rewrite Hc.
Qed.

Lemma prunable_spec child :
  Trie.prunable child = true →
  TrieNode.is_end_of_word child = false ∧ TrieNode.children child = [].
Proof.
  unfold Trie.prunable. intros H.
  apply andb_true_iff in H as [H Hc]. apply andb_true_iff in H as [_ He].
  apply negb_true_iff in He. split; [done|].
  by destruct (TrieNode.children child).
Qed.

Lemma remove_from_other cs :
  ∀ node node' going cs',
    Trie.remove_from cs node = Some (node', going) → cs' ≠ cs →
    terminal_at cs' node' = terminal_at cs' node.
Proof.
  induction cs as [|ch cs IH]; intros node node' going cs';
    cbn [Trie.remove_from].
  - destruct (TrieNode.is_end_of_word node); [|done].
    intros [= <- _] Hne. by destruct cs'.
  - destruct (dict_get ch (TrieNode.children node)) as [child|] eqn:Hc; [|done].
    destruct (Trie.remove_from cs child) as [[c' g]|] eqn:Hr; [|done].
    assert (∀ r, r ≠ cs → terminal_at r c' = terminal_at r child) as Hsame
      by (intros r Hr'; by eapply IH).
    intros Hres Hne. destruct cs' as [|k r].
    { destruct g; [destruct (Trie.prunable _)|];
        by injection Hres as <- _. }
    rewrite (terminal_at_cons k r node).
    destruct (decide (ch = k)) as [<-|Hk].
    + assert (r ≠ cs) as Hr' by congruence.
      rewrite Hc, <- (Hsame r Hr').
      destruct g; [destruct (Trie.prunable _) eqn:Hp|];
        injection Hres as <- _; rewrite terminal_at_cons;
        cbn [TrieNode.children].
      * rewrite dict_get_del_eq. apply prunable_spec in Hp as [He Hch].
        cbn in He, Hch. symmetry. by apply childless_not_terminal.
      * rewrite dict_get_set_eq. destruct c' as [c e wt wo pc].
        apply (terminal_at_count r c e wt wo (pc - 1) wt wo pc).
      * by rewrite dict_get_set_eq.
    + destruct g; [destruct (Trie.prunable _)|];
        injection Hres as <- _; rewrite terminal_at_cons;
        cbn [TrieNode.children];
        by rewrite ?dict_get_del_ne, ?dict_get_set_ne by done.
Qed.

(** X3. [remove] leaves the other texts as they are: pruning never takes
    away the node of another indexed text. *)
Theorem remove_keeps_others word tr text :
  lower text ≠ lower word →
  Trie.is_indexed text (Trie.remove word tr) = Trie.is_indexed text tr.
Proof.
  intros Hne. unfold Trie.is_indexed, Trie._descend, Trie.remove.
  destruct (Trie.remove_from (lower word) (Trie.root tr)) as [[r g]|] eqn:Hr;
    [|done].
  by apply (remove_from_other _ _ _ _ _ Hr).
Qed.

Lemma remove_keeps_others_witness :
  Trie.is_indexed "ab"
    (Trie.remove "abc"
       (Trie.insert (Trie.AStr "abc") (Trie.insert (Trie.AStr "ab") Trie.new)))
  = Trie.is_indexed "ab"
      (Trie.insert (Trie.AStr "abc") (Trie.insert (Trie.AStr "ab") Trie.new)).
Proof. apply remove_keeps_others. discriminate. Defined.

Lemma not_terminal_remove_from cs :
  ∀ node, terminal_at cs node = false → Trie.remove_from cs node = None.
Proof.
  induction cs as [|ch cs IH]; intros node; unfold terminal_at;
    cbn [Trie.descend_from Trie.remove_from].
  - by intros ->.
  - destruct (dict_get ch (TrieNode.children node)) as [child|]; [|done].
    intros Ht. by rewrite (IH child Ht).
Qed.

(** X4. Removing a text that is not indexed (no path, or a path whose last
    node is not terminal) changes nothing: no count moves, no node goes. *)
Theorem remove_not_indexed_noop word tr :
  Trie.is_indexed word tr = false → Trie.remove word tr = tr.
Proof.
  intros Hn. unfold Trie.remove.
  by rewrite (not_terminal_remove_from (lower word) (Trie.root tr) Hn).
Qed.

Lemma remove_not_indexed_noop_witness :
  Trie.remove "roc" (Trie.insert (Trie.AStr "rocket") Trie.new)
  = Trie.insert (Trie.AStr "rocket") Trie.new.
Proof. apply remove_not_indexed_noop. reflexivity. Defined.

Lemma insert_from_count cs a node :
  TrieNode.prefix_count (Trie.insert_from cs a node) = TrieNode.prefix_count node.
Proof. by destruct cs. Qed.

(** X5. [insert] adds exactly one to the count of the first letter of the
    inserted text and leaves the count of every other letter as it is (an
    empty text changes no count). *)
Theorem insert_counts_first_letter a tr c :
  Trie.get_prefix_count (String c EmptyString) (Trie.insert a tr)
  = Trie.get_prefix_count (String c EmptyString) tr
    + (if head_is (String (lower_ascii c) EmptyString) (lower (Trie.text_of a))
       then 1 else 0).
Proof.
  unfold Trie.get_prefix_count, Trie.insert. cbn [lower Trie.root].
  destruct (lower (Trie.text_of a)) as [|ch rest];
    cbn [Trie.insert_from head_is TrieNode.children].
  - lia.
  - destruct (decide (ch = lower_ascii c)) as [->|Hne].
    + rewrite dict_get_set_eq, insert_from_count, bool_decide_eq_true_2 by done.
      cbn [TrieNode.prefix_count].
      by destruct (dict_get (lower_ascii c) (TrieNode.children (Trie.root tr))).
    + rewrite dict_get_set_ne by done.
      rewrite bool_decide_eq_false_2 by congruence. lia.
Qed.

Lemma dict_get_map_values {K A B} `{EqDecision K} (f : A → B) k (d : list (K * A)) :
  dict_get k (map (fun kv => (kv.1, f kv.2)) d) = f <$> dict_get k d.
Proof.
  induction d as [|[k' v] d IH]; simpl; [done|].
  by destruct (decide (k = k')).
Qed.

(** X6. [get_all_prefixes] and [get_prefix_count] agree: the count of a
    letter is the entry of its lowercase form in the table, and 0 when the
    table has no such entry. *)
Theorem get_all_prefixes_agrees tr c :
  Trie.get_prefix_count (String c EmptyString) tr
  = default 0 (dict_get (lower_ascii c) (Trie.get_all_prefixes tr)).
Proof.
  unfold Trie.get_prefix_count, Trie.get_all_prefixes. cbn [lower].
  rewrite dict_get_map_values.
  by destruct (dict_get (lower_ascii c) (TrieNode.children (Trie.root tr))).
Qed.

(** ** Directories built by [insert] and [remove] *)

Lemma paths_ok_new path : paths_ok path TrieNode.new.
Proof.
  intros [|c cs] n; cbn; [|done]. intros [= <-]. split; [apply NoDup_nil_2|done].
Qed.

Lemma paths_ok_count path children e wt wo pc pc' :
  paths_ok path (TrieNode.mk children e wt wo pc) →
  paths_ok path (TrieNode.mk children e wt wo pc').
Proof.
  intros Hok [|c cs] n.
  - cbn. intros [= <-]. apply (Hok EmptyString _ eq_refl).
  - apply (Hok (String c cs)).
Qed.

Lemma paths_ok_child path node ch child :
  paths_ok path node → dict_get ch (TrieNode.children node) = Some child →
  paths_ok (path ++ String ch EmptyString) child.
Proof.
  intros Hok Hc cs n Hd. rewrite append_snoc.
  apply (Hok (String ch cs)). cbn [Trie.descend_from]. by rewrite Hc.
Qed.

Lemma insert_from_paths_ok cs :
  ∀ path node a,
    paths_ok path node → lower (Trie.text_of a) = (path ++ cs)%string →
    paths_ok path (Trie.insert_from cs a node).
Proof.
  induction cs as [|ch cs IH]; intros path node a Hok Htext cs0 n;
    cbn [Trie.insert_from].
  - destruct cs0 as [|c r].
    + cbn. intros [= <-]. split; [apply (Hok EmptyString _ eq_refl)|].
      intros _. exists a. rewrite payload_inserted. done.
    + apply (Hok (String c r)).
  - destruct cs0 as [|c r].
    + cbn. intros [= <-]. cbn [TrieNode.children TrieNode.is_end_of_word].
      destruct (Hok EmptyString node eq_refl) as [Hnd Hend].
      split; [by apply dict_set_NoDup|]. intros He.
      destruct (Hend He) as (x & Hx & Hlow). exists x. split; [|done].
      by destruct node.
    + cbn [Trie.descend_from TrieNode.children].
      destruct (decide (ch = c)) as [<-|Hne].
      * rewrite dict_get_set_eq. intros Hd. rewrite <- append_snoc.
        revert Hd. apply IH; [|by rewrite append_snoc].
        destruct (dict_get ch (TrieNode.children node)) as [child|] eqn:Hc;
          cbn [default].
        -- pose proof (paths_ok_child _ _ _ _ Hok Hc) as Hchild.
           destruct child. by eapply paths_ok_count.
        -- eapply paths_ok_count. apply paths_ok_new.
      * rewrite dict_get_set_ne by done. intros Hd.
        apply (Hok (String c r)). cbn [Trie.descend_from]. done.
Qed.

Lemma payload_fields c e wt wo pc c' e' pc' :
  payload (TrieNode.mk c e wt wo pc) = payload (TrieNode.mk c' e' wt wo pc').
Proof. done. Qed.

Lemma remove_from_sub cs :
  ∀ node node' going,
    Trie.remove_from cs node = Some (node', going) →
    ∀ cs0 n', Trie.descend_from cs0 node' = Some n' →
      ∃ n, Trie.descend_from cs0 node = Some n
           ∧ (NoDup (TrieNode.children n).*1 → NoDup (TrieNode.children n').*1)
           ∧ (TrieNode.is_end_of_word n' = true →
              TrieNode.is_end_of_word n = true ∧ payload n = payload n').
Proof.
  induction cs as [|ch cs IH]; intros node node' going; cbn [Trie.remove_from].
  - destruct (TrieNode.is_end_of_word node) eqn:He; [|done].
    intros [= <- _] [|c r] n'.
    + cbn. intros [= <-]. exists node. split; [done|]. split; done.
    + intros Hd. exists n'. by split.
  - destruct (dict_get ch (TrieNode.children node)) as [child|] eqn:Hc; [|done].
    destruct (Trie.remove_from cs child) as [[c' g]|] eqn:Hr; [|done].
    pose proof (IH _ _ _ Hr) as IHc.
    assert (∀ kids, NoDup (TrieNode.children node).*1 →
              (kids = dict_del ch (TrieNode.children node)
               ∨ ∃ v, kids = dict_set ch v (TrieNode.children node)) →
              NoDup kids.*1) as Hkids.
    { intros kids Hnd [->|[v ->]];
        [by apply dict_del_NoDup|by apply dict_set_NoDup]. }
    assert (∀ kids r n',
              (kids = dict_del ch (TrieNode.children node)
               ∨ ∃ v, kids = dict_set ch v (TrieNode.children node)
                      ∧ ∀ r0 n0, Trie.descend_from r0 v = Some n0 →
                          ∃ n, Trie.descend_from r0 child = Some n
                               ∧ (NoDup (TrieNode.children n).*1 →
                                  NoDup (TrieNode.children n0).*1)
                               ∧ (TrieNode.is_end_of_word n0 = true →
                                  TrieNode.is_end_of_word n = true
                                  ∧ payload n = payload n0)) →
              Trie.descend_from r
                (TrieNode.mk kids (TrieNode.is_end_of_word node)
                   (TrieNode.word_text node) (TrieNode.word_object node)
                   (TrieNode.prefix_count node)) = Some n' →
              ∃ n, Trie.descend_from r node = Some n
                   ∧ (NoDup (TrieNode.children n).*1 →
                      NoDup (TrieNode.children n').*1)
                   ∧ (TrieNode.is_end_of_word n' = true →
                      TrieNode.is_end_of_word n = true ∧ payload n = payload n'))
      as Hnode.
    { intros kids r n' Hk. destruct r as [|k r].
      - cbn. intros [= <-]. exists node. split; [done|].
        cbn [TrieNode.children TrieNode.is_end_of_word]. split.
        + intros Hnd. apply Hkids; [done|].
          destruct Hk as [->|(v & -> & _)]; eauto.
        + intros He. split; [done|]. by destruct node.
      - cbn [Trie.descend_from TrieNode.children].
        destruct (decide (ch = k)) as [<-|Hne].
        + destruct Hk as [->|(v & -> & Hv)].
          * by rewrite dict_get_del_eq.
          * rewrite dict_get_set_eq, Hc. apply Hv.
        + destruct Hk as [->|(v & -> & Hv)].
          * rewrite dict_get_del_ne by done.
            destruct (dict_get k (TrieNode.children node)); [|done].
            intros Hd. exists n'. by split.
          * rewrite dict_get_set_ne by done.
            destruct (dict_get k (TrieNode.children node)); [|done].
            intros Hd. exists n'. by split. }
    destruct g; [destruct (Trie.prunable _)|]; intros [= <- _] cs0 n';
      apply Hnode.
    + by left.
    + right. eexists; split; [done|]. intros r0 n0. destruct r0 as [|k r0].
      * cbn. intros [= <-]. destruct (IHc EmptyString c' eq_refl)
          as (n & Hd & Hnd & Hend). exists n. split; [done|].
        split; [done|]. intros He. destruct (Hend He) as [? Hp].
        split; [done|]. rewrite Hp. by destruct c'.
      * intros Hd. apply IHc. by destruct c'.
    + right. eexists; split; [done|]. apply IHc.
Qed.

Lemma remove_from_paths_ok cs path node node' going :
  Trie.remove_from cs node = Some (node', going) →
  paths_ok path node → paths_ok path node'.
Proof.
  intros Hr Hok cs0 n' Hd.
  destruct (remove_from_sub _ _ _ _ Hr _ _ Hd) as (n & Hdn & Hnd & Hend).
  destruct (Hok _ _ Hdn) as [Hnd0 Hend0]. split; [auto|].
  intros He. destruct (Hend He) as [He0 Hp]. rewrite <- Hp. auto.
Qed.

Lemma built_paths_ok tr : built tr → paths_ok EmptyString (Trie.root tr).
Proof.
  induction 1 as [|a tr _ IH|word tr _ IH].
  - apply paths_ok_new.
  - unfold Trie.insert. cbn [Trie.root]. by apply insert_from_paths_ok.
  - unfold Trie.remove.
    destruct (Trie.remove_from (lower word) (Trie.root tr)) as [[r g]|] eqn:Hr;
      [|done].
    cbn [Trie.root]. by eapply remove_from_paths_ok.
Qed.

Lemma collect_sound :
  ∀ node x, (∀ cs n, Trie.descend_from cs node = Some n →
                     NoDup (TrieNode.children n).*1) →
            x ∈ Trie._collect node →
            ∃ cs n, Trie.descend_from cs node = Some n
                    ∧ TrieNode.is_end_of_word n = true ∧ payload n = Some x.
Proof.
  induction node as [children e wt wo pc IH] using TrieNode_children_ind.
  intros x Hnd. rewrite collect_unfold. rewrite elem_of_app. intros [Hx|Hx].
  - unfold collect_here in Hx.
    destruct (TrieNode.is_end_of_word _) eqn:He; [|by apply elem_of_nil in Hx].
    destruct (payload _) as [y|] eqn:Hp; [|by apply elem_of_nil in Hx].
    apply list_elem_of_singleton in Hx as ->.
    eexists EmptyString, _. split; [reflexivity|]. by split.
  - apply list_elem_of_bind in Hx as ([k child] & Hx & Hin).
    rewrite Forall_forall in IH. pose proof (IH _ Hin) as IHc. cbn in IHc, Hx.
    assert (dict_get k children = Some child) as Hg.
    { apply elem_of_dict_get; [|done]. apply (Hnd EmptyString _ eq_refl). }
    destruct (IHc x) as (cs & n & Hd & He & Hp); [|done|].
    + intros cs n Hd. apply (Hnd (String k cs)). cbn [Trie.descend_from
        TrieNode.children]. by rewrite Hg.
    + exists (String k cs), n. split; [|done].
      cbn [Trie.descend_from TrieNode.children]. by rewrite Hg.
Qed.

Lemma search_result_node tr prefix x :
  built tr →
  x ∈ Trie.find_words_starting_with prefix tr →
  ∃ cs n, Trie.descend_from (lower prefix ++ cs) (Trie.root tr) = Some n
          ∧ TrieNode.is_end_of_word n = true
          ∧ lower (Trie.text_of x) = (lower prefix ++ cs)%string.
Proof.
  intros Hb. pose proof (built_paths_ok _ Hb) as Hok.
  unfold Trie.find_words_starting_with, Trie._descend.
  destruct (Trie.descend_from (lower prefix) (Trie.root tr)) as [m|] eqn:Hm;
    [|by intros Hx; apply elem_of_nil in Hx].
  assert (∀ cs n, Trie.descend_from cs m = Some n →
            Trie.descend_from (lower prefix ++ cs) (Trie.root tr) = Some n)
    as Hpath by (intros cs n Hd; by rewrite descend_app, Hm).
  intros Hx. apply collect_sound in Hx as (cs & n & Hd & He & Hp).
  - exists cs, n. split; [auto|]. split; [done|].
    destruct (Hok _ _ (Hpath _ _ Hd)) as [_ Hend].
    destruct (Hend He) as (y & Hy & Hlow).
    rewrite append_nil in Hlow. congruence.
  - intros cs n Hd. by destruct (Hok _ _ (Hpath _ _ Hd)).
Qed.

(** X7. Prefix search returns nothing else: in a directory built by
    [insert] and [remove], every result of the search for a prefix has a
    text that starts with the prefix, case apart. *)
Theorem search_results_start_with_prefix tr prefix x :
  built tr →
  x ∈ Trie.find_words_starting_with prefix tr →
  ∃ rest, lower (Trie.text_of x) = (lower prefix ++ rest)%string.
Proof.
  intros Hb Hx. destruct (search_result_node _ _ _ Hb Hx) as (cs & n & _ & _ & ?).
  by exists cs.
Qed.

Lemma search_results_start_with_prefix_witness :
  ∃ rest, lower (Trie.text_of (Trie.AStr "Rocket")) = (lower "RO" ++ rest)%string.
Proof.
  apply (search_results_start_with_prefix
           (Trie.insert (Trie.AStr "Rocket") Trie.new)).
  - apply built_insert, built_new.
  - apply (list_elem_of_here (Trie.AStr "Rocket") []).
Defined.

(** X8. A removed text is gone from every search: in a directory built by
    [insert] and [remove], no prefix search after [remove(word)] returns a
    payload whose text is [word], case apart. *)
Theorem removed_not_found tr word prefix x :
  built tr →
  x ∈ Trie.find_words_starting_with prefix (Trie.remove word tr) →
  lower (Trie.text_of x) ≠ lower word.
Proof.
  intros Hb Hx Heq.
  destruct (search_result_node _ _ _ (built_remove word _ Hb) Hx)
    as (cs & n & Hd & He & Hlow).
  pose proof (remove_not_indexed word tr) as Hgone.
  unfold Trie.is_indexed, Trie._descend in Hgone.
  rewrite <- Heq, Hlow, Hd in Hgone. congruence.
Qed.

Lemma removed_not_found_witness :
  lower (Trie.text_of (Trie.AStr "abc")) ≠ lower "AB".
Proof.
  apply (removed_not_found
           (Trie.insert (Trie.AStr "ab") (Trie.insert (Trie.AStr "abc") Trie.new))
           "AB" "a").
  - apply built_insert, built_insert, built_new.
  - apply (list_elem_of_here (Trie.AStr "abc") []).
Defined.

(** * More of the match engine *)

(** ** Choosing a text *)

Lemma rng_choice_None {A} r (l : list A) : rng_choice r l = None ↔ l = [].
Proof.
  destruct l as [|x l]; [done|]. split; [|done]. unfold rng_choice.
  intros Hn. apply lookup_ge_None in Hn.
  pose proof (Nat.mod_upper_bound r (length (x :: l))) as Hlt.
  simpl in *. lia.
Qed.

Lemma rng_choice_elem_of {A} r (l : list A) x : rng_choice r l = Some x → x ∈ l.
Proof.
  destruct l as [|y l]; [done|]. unfold rng_choice. intros Hl.
  by eapply list_elem_of_lookup_2.
Qed.

Lemma choose_unique_text_cases r g :
  let fresh := filter (λ word, (word ∉ Game.active_texts g)
                               ∧ (word ∉ Game.used_words g))
                      (Game.words_list g) in
  let idle := filter (λ word, word ∉ Game.active_texts g) (Game.words_list g) in
  (fresh ≠ [] ∧ Game._choose_unique_text r g = rng_choice r fresh)
  ∨ (fresh = [] ∧ idle ≠ [] ∧ Game._choose_unique_text r g = rng_choice r idle)
  ∨ (fresh = [] ∧ idle = []
     ∧ Game._choose_unique_text r g = rng_choice r (Game.words_list g)).
Proof.
  intros fresh idle. unfold Game._choose_unique_text. fold fresh. fold idle.
  destruct fresh as [|x l].
  - destruct idle as [|x' l'].
    + right. right. done.
    + right. left. done.
  - left. done.
Qed.

(** X9. [spawn_word] fails exactly on an empty word bank: with at least one
    word in [words_list] it returns a word, whatever is drawn, whatever is
    active or used. *)
Theorem spawn_fails_iff_empty_bank d g :
  Game.spawn_word d g = None ↔ Game.words_list g = [].
Proof.
  unfold Game.spawn_word.
  destruct (Game._choose_unique_text (Game.d_choice d) g) as [text|] eqn:Hc.
  - split; [done|]. intros Hnil. exfalso. revert Hc.
    unfold Game._choose_unique_text. rewrite Hnil. done.
  - split; [|done]. intros _.
    destruct (choose_unique_text_cases (Game.d_choice d) g)
      as [[Hne He]|[(Hf & Hne & He)|(Hf & Hi & He)]]; rewrite He in Hc;
      apply rng_choice_None in Hc; try done.
Qed.

(** X10. The text [_choose_unique_text] returns is a word of the bank; it
    is neither active nor used when the bank has such a word, and it is not
    active when the bank has a word that is not active.  A text on screen
    is taken again only when every word of the bank is on screen. *)
Theorem chosen_text_preference r g text :
  Game._choose_unique_text r g = Some text →
  text ∈ Game.words_list g
  ∧ ((∃ w, w ∈ Game.words_list g ∧ (w ∉ Game.active_texts g)
           ∧ (w ∉ Game.used_words g)) →
     (text ∉ Game.active_texts g) ∧ (text ∉ Game.used_words g))
  ∧ ((∃ w, w ∈ Game.words_list g ∧ (w ∉ Game.active_texts g)) →
     text ∉ Game.active_texts g).
Proof.
  intros Hc.
  destruct (choose_unique_text_cases r g)
    as [[Hne He]|[(Hf & Hne & He)|(Hf & Hi & He)]]; rewrite He in Hc;
    apply rng_choice_elem_of in Hc.
  - apply list_elem_of_filter in Hc as [[Ha Hu] Hin]. by split_and!.
  - apply list_elem_of_filter in Hc as [Ha Hin]. split; [done|]. split; [|done].
    intros (w & Hw & Ha' & Hu).
    assert (w ∈ filter (λ word, (word ∉ Game.active_texts g)
                                ∧ (word ∉ Game.used_words g))
                       (Game.words_list g)) as Hfw
      by by apply list_elem_of_filter.
    rewrite Hf in Hfw. by apply elem_of_nil in Hfw.
  - split; [done|]. split.
    + intros (w & Hw & Ha' & Hu).
      assert (w ∈ filter (λ word, (word ∉ Game.active_texts g)
                                  ∧ (word ∉ Game.used_words g))
                         (Game.words_list g)) as Hfw
        by by apply list_elem_of_filter.
      rewrite Hf in Hfw. by apply elem_of_nil in Hfw.
    + intros (w & Hw & Ha').
      assert (w ∈ filter (λ word, word ∉ Game.active_texts g)
                         (Game.words_list g)) as Hfw
        by by apply list_elem_of_filter.
      rewrite Hi in Hfw. by apply elem_of_nil in Hfw.
Qed.

Lemma chosen_text_preference_witness :
  "comet" ∈ Game.words_list scenario_locked
  ∧ ("comet" ∉ Game.active_texts scenario_locked).
Proof.
  destruct (chosen_text_preference 5 scenario_locked "comet" eq_refl)
    as (Hin & _ & Hactive).
  split; [exact Hin|]. apply Hactive. exists "comet". split; [exact Hin|].
  vm_compute. intros H. discriminate H.
Defined.

(** ** The players of a match *)

Lemma player_evolves_refl p : player_evolves p p.
Proof. unfold player_evolves. split_and!; try done; lia. Qed.

Lemma player_evolves_trans p1 p2 p3 :
  player_evolves p1 p2 → player_evolves p2 p3 → player_evolves p1 p3.
Proof.
  intros (? & ? & ? & H12 & ?) (? & ? & ? & H23 & ?).
  split_and!; try congruence; [|auto].
  intros Hl. specialize (H12 Hl). assert (0 ≤ Player.lives p2) as Hl2 by lia.
  specialize (H23 Hl2). lia.
Qed.

Lemma players_evolve_refl g : players_evolve g g.
Proof.
  intros sid. destruct (Game.players g !! sid); [apply player_evolves_refl|done].
Qed.

Lemma players_evolve_trans g1 g2 g3 :
  players_evolve g1 g2 → players_evolve g2 g3 → players_evolve g1 g3.
Proof.
  intros H12 H23 sid. specialize (H12 sid). specialize (H23 sid).
  destruct (Game.players g1 !! sid), (Game.players g2 !! sid),
    (Game.players g3 !! sid); try done.
  by eapply player_evolves_trans.
Qed.

Lemma players_evolve_insert g g' sid p q :
  Game.players g !! sid = Some p → player_evolves p q →
  Game.players g' = <[sid := q]> (Game.players g) →
  players_evolve g g'.
Proof.
  intros Hs Hev Hg' sid'. rewrite Hg'. destruct (decide (sid = sid')) as [<-|Hne].
  - by rewrite lookup_insert_eq, Hs.
  - rewrite lookup_insert_ne by done.
    destruct (Game.players g !! sid'); [apply player_evolves_refl|done].
Qed.

Lemma miss_player_evolves wid p : player_evolves p (Game.miss_player wid p).
Proof.
  unfold player_evolves, Game.miss_player, MISS_LIFE_PENALTY.
  case_bool_decide; simpl; split_and!; try done; lia.
Qed.

Lemma missed_by_evolves wids : ∀ p, player_evolves p (missed_by wids p).
Proof.
  induction wids as [|wid wids IH]; intros p; [apply player_evolves_refl|].
  unfold missed_by in *. cbn [fold_left].
  eapply player_evolves_trans; [apply miss_player_evolves|apply IH].
Qed.

Lemma step_players_evolve g g' : step g g' → players_evolve g g'.
Proof.
  intros Hs. destruct Hs as [sid g|d g g' w Hsp|g|sid ch g].
  - unfold Game.client_ready.
    destruct (Game.players g !! sid) as [p|] eqn:Hp;
      [|apply players_evolve_refl].
    eapply players_evolve_insert; [done| |done].
    unfold player_evolves. simpl. split_and!; try done; lia.
  - unfold Game.spawn_word in Hsp.
    destruct (Game._choose_unique_text _ g); [|done].
    injection Hsp as <- <-. intros sid. simpl.
    destruct (Game.players g !! sid); [apply player_evolves_refl|done].
  - intros sid. rewrite tick_players.
    destruct (Game.players g !! sid); [apply missed_by_evolves|done].
  - destruct (type_char_cases sid ch g)
      as [ | | |p c wid w r Hs Hl Hch Hc Hcur Ho0 Hr0 Hnr w1
          |p c wid w Hs Hl Hch Hc Hcur Ho0 Hr0 w1 p1 p2 p' g'
          |p c wid w Hs Hl Hch Hc Hcur Hbad
          |p c ws w1 Hs Hl Hch Hc Hcur Hscan p'
          |p c Hs Hl Hch Hc Hcur Hscan]; try apply players_evolve_refl;
      (eapply players_evolve_insert;
       [exact Hs| |try subst g'; by rewrite ?despawn_players]);
      unfold player_evolves; simpl; split_and!; try done; lia.
Qed.

Lemma steps_players_evolve g g' : rtc step g g' → players_evolve g g'.
Proof.
  induction 1 as [g|g g1 g' Hs _ IH]; [apply players_evolve_refl|].
  eapply players_evolve_trans; [by apply step_players_evolve|done].
Qed.

(** X11. No operation of a match adds or removes a player or changes who
    they are: whatever the operations between two states, the session ids
    of the players are the same, and each player keeps their [sid],
    [username] and [color]. *)
Theorem players_stay g g' sid :
  rtc step g g' →
  match Game.players g !! sid, Game.players g' !! sid with
  | Some p, Some p' =>
      Player.sid p' = Player.sid p ∧ Player.username p' = Player.username p
      ∧ Player.color p' = Player.color p
  | None, None => True
  | _, _ => False
  end.
Proof.
  intros Hs. pose proof (steps_players_evolve _ _ Hs sid) as Hev.
  destruct (Game.players g !! sid), (Game.players g' !! sid); try done.
  by destruct Hev as (? & ? & ? & _).
Qed.

Lemma players_stay_witness :
  match Game.players scenario_start !! "P2",
        Game.players (Game.tick scenario_start) !! "P2" with
  | Some p, Some p' =>
      Player.sid p' = Player.sid p ∧ Player.username p' = Player.username p
      ∧ Player.color p' = Player.color p
  | None, None => True
  | _, _ => False
  end.
Proof.
  apply players_stay. eapply rtc_l; [apply step_tick|apply rtc_refl].
Defined.

Lemma stats_ok_step g g' :
  step g g' →
  (∀ sid p, Game.players g !! sid = Some p → stats_ok p) →
  ∀ sid p, Game.players g' !! sid = Some p → stats_ok p.
Proof.
  intros Hs Hok.
  assert (∀ q, stats_ok q → stats_ok (Game.award_char q)) as Haward.
  { intros q (Hl & Hst & Hsc & Hdiv).
    unfold stats_ok, Game.award_char, SCORE_PER_CHAR in *. simpl.
    split_and!; try lia. apply Z.divide_add_r; [done|apply Z.divide_refl]. }
  assert (∀ q v, stats_ok q → stats_ok (Player.set_current_word_id v q)) as Hcur
    by (by intros q v (? & ? & ? & ?)).
  assert (∀ q, stats_ok q → stats_ok (Player.set_streak 0 q)) as Hzero
    by (by intros q (? & ? & ? & ?)).
  assert (∀ q wid, stats_ok q → stats_ok (Game.miss_player wid q)) as Hmiss.
  { intros q wid (Hl & Hst & Hsc & Hdiv).
    unfold stats_ok, Game.miss_player, MISS_LIFE_PENALTY, PLAYER_LIVES in *.
    case_bool_decide; simpl; split_and!; try done; lia. }
  assert (∀ g0 g1 sid0 q,
            (∀ sid p, Game.players g0 !! sid = Some p → stats_ok p) →
            stats_ok q → Game.players g1 = <[sid0 := q]> (Game.players g0) →
            ∀ sid p, Game.players g1 !! sid = Some p → stats_ok p) as Hins.
  { intros g0 g1 sid0 q H0 Hq -> sid p. rewrite lookup_insert.
    case_decide; [by intros [= <-]|apply H0]. }
  destruct Hs as [sid0 g|d g g' w Hsp|g|sid0 ch g].
  - unfold Game.client_ready.
    destruct (Game.players g !! sid0) as [p0|] eqn:Hp0; [|done].
    eapply Hins; [done| |done]. by destruct (Hok _ _ Hp0) as (? & ? & ? & ?).
  - unfold Game.spawn_word in Hsp.
    destruct (Game._choose_unique_text _ g); [|done]. by injection Hsp as <- <-.
  - intros sid p. rewrite tick_players.
    destruct (Game.players g !! sid) as [p0|] eqn:Hp0; [|done].
    intros [= <-]. specialize (Hok _ _ Hp0). clear Hp0. revert p0 Hok.
    induction (missed_ids (Game.words g)) as [|wid wids IH]; intros p0 Hp; [done|].
    unfold missed_by in *. cbn [fold_left]. apply IH. by apply Hmiss.
  - destruct (type_char_cases sid0 ch g)
      as [ | | |p c wid w r Hs Hl Hch Hc Hcw Ho0 Hr0 Hnr w1
          |p c wid w Hs Hl Hch Hc Hcw Ho0 Hr0 w1 p1 p2 p' g'
          |p c wid w Hs Hl Hch Hc Hcw Hbad
          |p c ws w1 Hs Hl Hch Hc Hcw Hscan p'
          |p c Hs Hl Hch Hc Hcw Hscan]; try done;
      pose proof (Hok _ _ Hs) as Hp.
    + eapply Hins; [done| |done]. by apply Haward.
    + eapply Hins; [done| |subst g'; by rewrite despawn_players].
      subst p' p2 p1. apply Hcur.
      destruct (Haward _ Hp) as (? & ? & ? & Hdiv).
      unfold stats_ok, WORD_BONUS, SCORE_PER_CHAR in *. simpl in *.
      split_and!; try lia. apply Z.divide_add_r; [done|]. by exists 2.
    + eapply Hins; [done| |done]. by apply Hzero.
    + eapply Hins; [done| |done]. subst p'. by apply Haward, Hcur.
    + eapply Hins; [done| |done]. by apply Hzero.
Qed.

(** X12. The figures of a player stay in range: in a match every player
    has between 0 and [PLAYER_LIVES] lives, a streak and a score that are
    not negative, and a score that is a multiple of [SCORE_PER_CHAR]. *)
Theorem player_figures_in_range g sid p :
  reachable g → Game.players g !! sid = Some p →
  0 ≤ Player.lives p ≤ PLAYER_LIVES ∧ 0 ≤ Player.streak p
  ∧ 0 ≤ Player.score p ∧ (SCORE_PER_CHAR | Player.score p).
Proof.
  intros Hr. revert sid p.
  induction Hr as [room wl sid1 u1 sid2 u2 H1 H2|g g' Hr IH Hs].
  - intros sid p. unfold Game.paired. simpl. rewrite lookup_insert.
    assert (stats_ok (Player.new sid2 u2 (120, 120, 255))
            ∧ stats_ok (Player.new sid1 u1 (255, 120, 120))) as [Hn2 Hn1].
    { unfold stats_ok. simpl. unfold PLAYER_LIVES, SCORE_PER_CHAR.
      split; split_and!; try lia; by exists 0. }
    case_decide; [by intros [= <-]|]. rewrite lookup_insert.
    case_decide; [by intros [= <-]|]. by rewrite lookup_empty.
  - by eapply stats_ok_step.
Qed.

Lemma player_figures_in_range_witness :
  0 ≤ 3 ≤ PLAYER_LIVES ∧ 0 ≤ 1 ∧ 0 ≤ 5 ∧ (SCORE_PER_CHAR | 5).
Proof.
  apply (player_figures_in_range scenario_locked "P1"
           (Player.mk "P1" "alice" (255, 120, 120) 5 3 1 (Some "w_1000_7") false)).
  - apply scenario_locked_reachable.
  - reflexivity.
Defined.

(** X13. Lives only go down: whatever the operations of a match after a
    state, a player has at most the lives they had in that state.  No
    operation gives a life back. *)
Theorem lives_never_increase g g' sid p :
  reachable g → rtc step g g' → Game.players g !! sid = Some p →
  ∃ p', Game.players g' !! sid = Some p' ∧ Player.lives p' ≤ Player.lives p.
Proof.
  intros Hr Hs Hp. pose proof (steps_players_evolve _ _ Hs sid) as Hev.
  rewrite Hp in Hev. destruct (Game.players g' !! sid) as [p'|]; [|done].
  exists p'. split; [done|]. destruct Hev as (_ & _ & _ & Hl & _).
  destruct (reachable_inv _ Hr) as [_ _ Hpl]. destruct (Hpl _ _ Hp) as [_ H0].
  specialize (Hl H0). lia.
Qed.

Lemma lives_never_increase_witness :
  ∃ p', Game.players (Game.tick scenario_above_line) !! "P1" = Some p'
        ∧ Player.lives p' ≤ 3.
Proof.
  apply (lives_never_increase scenario_above_line _ "P1"
           (Player.mk "P1" "alice" (255, 120, 120) 5 3 1 (Some "w_1000_7") false)).
  - apply (reachable_ticks 423 _ scenario_locked_reachable).
  - eapply rtc_l; [apply step_tick|apply rtc_refl].
  - vm_compute. reflexivity.
Defined.

(** ** Locked words *)

(** X14. A player holds one locked word at most: in a match, two entries
    of [words] with the same owner are the same entry. *)
Theorem one_locked_word_per_player g k1 k2 w1 w2 sid :
  reachable g →
  dict_get k1 (Game.words g) = Some w1 → dict_get k2 (Game.words g) = Some w2 →
  Word.owner_sid w1 = Some sid → Word.owner_sid w2 = Some sid →
  k1 = k2 ∧ w1 = w2.
Proof.
  intros Hr Hg1 Hg2 Ho1 Ho2. destruct (reachable_inv _ Hr) as [Hw _ _].
  destruct (word_inv_owner _ _ _ _ (Hw _ _ Hg1) Ho1) as (_ & _ & p1 & Hp1 & Hc1).
  destruct (word_inv_owner _ _ _ _ (Hw _ _ Hg2) Ho2) as (_ & _ & p2 & Hp2 & Hc2).
  assert (k1 = k2) as -> by congruence. split; [done|congruence].
Qed.

Lemma one_locked_word_per_player_witness :
  "w_1000_7" = "w_1000_7"
  ∧ Word.mk "w_1000_7" "rocket" 100 (-40)
            (WORD_SPEED_BASE + 0.5 * WORD_SPEED_RAND)%float
            locked (Some "P1") "r" "ocket"
    = Word.mk "w_1000_7" "rocket" 100 (-40)
              (WORD_SPEED_BASE + 0.5 * WORD_SPEED_RAND)%float
              locked (Some "P1") "r" "ocket".
Proof.
  apply (one_locked_word_per_player scenario_locked _ _ _ _ "P1").
  - apply scenario_locked_reachable.
  - reflexivity.
  - reflexivity.
  - reflexivity.
  - reflexivity.
Defined.

(** ** The keystroke handler *)

(** X15. The second [_despawn] of [on_typed_character] changes nothing:
    the game after the handler is the game [type_char] returns, because
    [type_char] has already removed the completed word under the id the
    handler passes. *)
Theorem handler_despawn_is_noop g sid ch :
  Game.on_typed_character sid ch g = (Game.type_char sid ch g).1.
Proof.
  unfold Game.on_typed_character.
  pose proof (type_char_cases sid ch g) as Hcase.
  destruct (Game.type_char sid ch g) as [g1 result]. cbn [fst snd] in *.
  destruct result as [| | |w1 s]; try done.
  inversion Hcase; subst.
  unfold Game._despawn at 1. cbn [Game.words Game.set_players].
  assert (dict_get (Word.id w') (Game.words g') = None) as ->; [|done].
  subst g'. rewrite despawn_words. apply dict_get_del_eq.
Qed.

(** ** What a tick leaves *)

Lemma dict_del_filter {V} (k : string) (d : list (string * V)) :
  dict_del k d = filter (fun kv => kv.1 ≠ k) d.
Proof.
  induction d as [|[k' v] d IH]; [done|]. cbn [dict_del].
  rewrite filter_cons. cbn [fst].
  destruct (decide (k = k')) as [->|Hne].
  - by rewrite decide_False by (intros H; by apply H).
  - rewrite decide_True by done. by rewrite IH.
Qed.

Lemma despawn_all_words wids :
  ∀ g, Game.words (despawn_all wids g)
       = filter (fun kv => kv.1 ∉ wids) (Game.words g).
Proof.
  induction wids as [|wid wids IH]; intros g.
  - cbn [despawn_all fold_left].
    induction (Game.words g) as [|kv l IHl]; [done|].
    rewrite filter_cons_True by apply not_elem_of_nil. by rewrite <- IHl.
  - unfold despawn_all in *. cbn [fold_left]. rewrite IH, despawn_words.
    rewrite dict_del_filter, list_filter_filter. apply list_filter_iff.
    intros kv. rewrite not_elem_of_cons. tauto.
Qed.

Lemma filter_ticked (ws : list (string * Word.t)) (ids : list string) :
  (∀ k w, (k, w) ∈ ws →
          (k ∉ ids ↔ crosses w = false)
          ∧ (crosses w = false → ticked w = advanced w)) →
  filter (fun kv => kv.1 ∉ ids) (map (fun kw => (kw.1, ticked kw.2)) ws)
  = map (fun kw => (kw.1, advanced kw.2))
        (filter (fun kw => crosses kw.2 = false) ws).
Proof.
  induction ws as [|[k w] ws IH]; intros Hent; [done|].
  destruct (Hent k w (list_elem_of_here _ _)) as [Hiff Hadv].
  assert (∀ k' w', (k', w') ∈ ws →
            (k' ∉ ids ↔ crosses w' = false)
            ∧ (crosses w' = false → ticked w' = advanced w')) as Hrest
    by (intros k' w' Hin; apply Hent; by apply list_elem_of_further).
  cbn [map fst snd]. destruct (crosses w) eqn:Hc.
  - rewrite filter_cons_False by (cbn [fst]; rewrite Hiff; done).
    rewrite (filter_cons_False _ (k, w)) by (cbn [snd]; congruence). auto.
  - rewrite filter_cons_True by (cbn [fst]; by apply Hiff).
    rewrite (filter_cons_True _ (k, w)) by done.
    cbn [map fst snd]. rewrite Hadv by done. f_equal. auto.
Qed.

(** X16. What a tick leaves.  In a match the words after a tick are the
    words that did not reach the miss line, in the order they had, each
    one moved down by its speed and otherwise as it was. *)
Theorem tick_words g :
  reachable g →
  Game.words (Game.tick g)
  = map (fun kw => (kw.1, advanced kw.2))
        (filter (fun kw => crosses kw.2 = false) (Game.words g)).
Proof.
  intros Hr. pose proof (reachable_inv _ Hr) as Hinv.
  pose proof Hinv as [Hw Hk _].
  rewrite tick_unfold, despawn_all_words. cbn [Game.words Game.set_players
    Game.set_words].
  apply filter_ticked. intros k w Hin.
  apply elem_of_dict_get in Hin; [|done]. split.
  - split.
    + intros Hnot. destruct (crosses w) eqn:Hc; [|done].
      exfalso. apply Hnot. by eapply inv_words_crossing.
    + intros Hc Hin'. apply inv_missed_ids in Hin' as (w' & Hg' & Hc'); [|done].
      congruence.
  - intros Hc. eapply ticked_not_crossing; [by apply Hw|done].
Qed.

Lemma tick_words_witness :
  Game.words (Game.tick scenario_above_line)
  = map (fun kw => (kw.1, advanced kw.2))
        (filter (fun kw => crosses kw.2 = false)
                (Game.words scenario_above_line)).
Proof.
  apply tick_words. apply (reachable_ticks 423 _ scenario_locked_reachable).
Defined.

(** ** Ready marks *)

Lemma players_evolve_size g g' :
  players_evolve g g' → size (Game.players g') = size (Game.players g).
Proof.
  intros Hev. rewrite <- !size_dom. f_equal. apply set_eq. intros sid.
  rewrite !elem_of_dom. specialize (Hev sid).
  destruct (Game.players g !! sid), (Game.players g' !! sid); try done;
    split; intros [? ?]; eauto; done.
Qed.

(** X17. Once both players are ready the match stays ready: when
    [_all_ready] holds in a state, it holds after any operations of the
    match (no operation takes a ready mark back or changes the number of
    players). *)
Theorem all_ready_stays g g' :
  Game._all_ready g = true → rtc step g g' → Game._all_ready g' = true.
Proof.
  unfold Game._all_ready. intros Hready Hs.
  apply andb_true_iff in Hready as [Hsize Hall].
  apply bool_decide_eq_true in Hsize. apply bool_decide_eq_true in Hall.
  pose proof (steps_players_evolve _ _ Hs) as Hev.
  apply andb_true_iff. split; apply bool_decide_eq_true.
  - by rewrite (players_evolve_size _ _ Hev).
  - intros sid p' Hp'. specialize (Hev sid). rewrite Hp' in Hev.
    destruct (Game.players g !! sid) as [p|] eqn:Hp; [|done].
    destruct Hev as (_ & _ & _ & _ & Hr). apply Hr. by eapply Hall.
Qed.

Lemma all_ready_stays_witness :
  Game._all_ready
    (Game.tick (Game.client_ready "P2" (Game.client_ready "P1" scenario_start)))
  = true.
Proof.
  apply (all_ready_stays
           (Game.client_ready "P2" (Game.client_ready "P1" scenario_start))).
  - vm_compute. reflexivity.
  - eapply rtc_l; [apply step_tick|apply rtc_refl].
Defined.

(** X18. Two clients with different session ids: the game built for them
    is not ready, one ready mark is not enough, and the marks of both, in
    either order, make it ready. *)
Theorem both_ready room words_list sid1 u1 sid2 u2 :
  sid1 ≠ sid2 →
  let g := Game.paired room words_list sid1 u1 sid2 u2 in
  Game._all_ready g = false
  ∧ Game._all_ready (Game.client_ready sid1 g) = false
  ∧ Game._all_ready (Game.client_ready sid2 g) = false
  ∧ Game._all_ready (Game.client_ready sid2 (Game.client_ready sid1 g)) = true
  ∧ Game._all_ready (Game.client_ready sid1 (Game.client_ready sid2 g)) = true.
Proof.
  intros Hne g.
  assert (∀ b1 b2,
            Game._all_ready
              (Game.set_players
                 (<[sid2 := Player.set_ready b2 (Player.new sid2 u2 (120, 120, 255))]>
                    (<[sid1 := Player.set_ready b1
                                 (Player.new sid1 u1 (255, 120, 120))]> ∅)) g)
            = b1 && b2) as Hall.
  { intros b1 b2. unfold Game._all_ready. cbn [Game.players Game.set_players].
    rewrite bool_decide_eq_true_2.
    2:{ rewrite map_size_insert_None by (by rewrite lookup_insert_ne).
        by rewrite map_size_insert_None, map_size_empty. }
    cbn [andb]. destruct b1, b2; cbn [andb].
    - apply bool_decide_eq_true. intros sid p. rewrite lookup_insert.
      case_decide; [by intros [= <-]|]. rewrite lookup_insert.
      case_decide; [by intros [= <-]|]. by rewrite lookup_empty.
    - apply bool_decide_eq_false. intros Hf.
      by specialize (Hf sid2 _ (lookup_insert_eq _ _ _)).
    - apply bool_decide_eq_false. intros Hf. specialize (Hf sid1).
      rewrite lookup_insert_ne, lookup_insert_eq in Hf by done.
      by specialize (Hf _ eq_refl).
    - apply bool_decide_eq_false. intros Hf.
      by specialize (Hf sid2 _ (lookup_insert_eq _ _ _)). }
  assert (Game.players g
          = <[sid2 := Player.new sid2 u2 (120, 120, 255)]>
              (<[sid1 := Player.new sid1 u1 (255, 120, 120)]> ∅)) as Hg by done.
  assert (∀ g0 : Game.t, Game.set_players (Game.players g0) g0 = g0) as Hid
    by (by intros []).
  assert (Game.client_ready sid1 g
          = Game.set_players
              (<[sid2 := Player.new sid2 u2 (120, 120, 255)]>
                 (<[sid1 := Player.set_ready true
                              (Player.new sid1 u1 (255, 120, 120))]> ∅)) g)
    as H1.
  { unfold Game.client_ready. rewrite Hg.
    rewrite lookup_insert_ne, lookup_insert_eq by done.
    f_equal. rewrite insert_insert_ne by done. by rewrite insert_insert_eq. }
  assert (Game.client_ready sid2 g
          = Game.set_players
              (<[sid2 := Player.set_ready true
                           (Player.new sid2 u2 (120, 120, 255))]>
                 (<[sid1 := Player.new sid1 u1 (255, 120, 120)]> ∅)) g)
    as H2.
  { unfold Game.client_ready. rewrite Hg, lookup_insert_eq.
    f_equal. by rewrite insert_insert_eq. }
  split_and!.
  - rewrite <- (Hid g), Hg. apply (Hall false false).
  - rewrite H1. apply (Hall true false).
  - rewrite H2. apply (Hall false true).
  - rewrite H1. unfold Game.client_ready. cbn [Game.players Game.set_players].
    rewrite lookup_insert_eq. rewrite insert_insert_eq.
    apply (Hall true true).
  - rewrite H2. unfold Game.client_ready. cbn [Game.players Game.set_players].
    rewrite lookup_insert_ne, lookup_insert_eq by done.
    rewrite insert_insert_ne by done. rewrite insert_insert_eq.
    apply (Hall true true).
Qed.

Lemma both_ready_witness :
  Game._all_ready (Game.client_ready "P2" (Game.client_ready "P1" scenario_start))
  = true.
Proof.
  destruct (both_ready "room" ["rocket"; "comet"] "P1" "alice" "P2" "bob")
    as (_ & _ & _ & Hboth & _).
  - discriminate.
  - exact Hboth.
Defined.

(** ** Texts and the word bank *)

Lemma chosen_in_bank r g text :
  Game._choose_unique_text r g = Some text → text ∈ Game.words_list g.
Proof.
  intros Hc.
  destruct (choose_unique_text_cases r g)
    as [[_ He]|[(_ & _ & He)|(_ & _ & He)]]; rewrite He in Hc;
    apply rng_choice_elem_of in Hc; [| |done];
    by apply list_elem_of_filter in Hc as [_ ?].
Qed.

Lemma despawn_words_list wid g :
  Game.words_list (Game._despawn wid g) = Game.words_list g.
Proof. unfold Game._despawn. by destruct (dict_get wid (Game.words g)). Qed.

Lemma despawn_bank_ok wid g : bank_ok g → bank_ok (Game._despawn wid g).
Proof.
  intros (Hw & Ha & Hu). unfold bank_ok. rewrite despawn_words_list.
  split_and!.
  - intros k w. rewrite despawn_words. destruct (decide (wid = k)) as [<-|Hne].
    + by rewrite dict_get_del_eq.
    + rewrite dict_get_del_ne by done. apply Hw.
  - intros text Hin. apply Ha. by apply (despawn_active wid g).
  - intros text. unfold Game._despawn.
    destruct (dict_get wid (Game.words g)) as [w|] eqn:Hg; [|apply Hu].
    simpl. rewrite elem_of_union, elem_of_singleton. intros [->|Hin].
    + by eapply Hw.
    + by apply Hu.
Qed.

Lemma bank_ok_players ps g : bank_ok g → bank_ok (Game.set_players ps g).
Proof. done. Qed.

Lemma bank_ok_set_word k w w' g :
  bank_ok g → dict_get k (Game.words g) = Some w →
  Word.text w' = Word.text w →
  bank_ok (Game.set_words (dict_set k w' (Game.words g)) g).
Proof.
  intros (Hw & Ha & Hu) Hg Ht. split_and!; [|done..].
  intros k0 w0. cbn [Game.words Game.set_words Game.words_list].
  destruct (decide (k = k0)) as [<-|Hne].
  - rewrite dict_get_set_eq. intros [= <-]. rewrite Ht. by eapply Hw.
  - rewrite dict_get_set_ne by done. apply Hw.
Qed.

Lemma step_bank_ok g g' :
  game_inv g → step g g' → bank_ok g →
  bank_ok g' ∧ Game.words_list g' = Game.words_list g.
Proof.
  intros Hinv Hs Hb. destruct Hs as [sid g|d g g' w Hsp|g|sid ch g].
  - unfold Game.client_ready. by destruct (Game.players g !! sid).
  - unfold Game.spawn_word in Hsp.
    destruct (Game._choose_unique_text _ g) as [text|] eqn:Hc; [|done].
    injection Hsp as <- <-. split; [|done].
    apply chosen_in_bank in Hc. destruct Hb as (Hw & Ha & Hu). split_and!.
    + intros k w. cbn [Game.words Game.set_words Game.set_active_texts
        Game.words_list]. set (wid := ("w_" ++ _)%string).
      destruct (decide (wid = k)) as [<-|Hne].
      * rewrite dict_get_set_eq. by intros [= <-].
      * rewrite dict_get_set_ne by done. apply Hw.
    + intros t. simpl. rewrite elem_of_union, elem_of_singleton.
      intros [->|Hin]; [done|by apply Ha].
    + done.
  - rewrite tick_unfold.
    set (g0 := Game.set_players _ _).
    assert (bank_ok g0) as Hb0.
    { destruct Hb as (Hw & Ha & Hu). split_and!; [|done..].
      intros k w. subst g0. cbn [Game.words Game.set_players Game.set_words
        Game.words_list]. rewrite dict_get_ticked.
      destruct (dict_get k (Game.words g)) as [w0|] eqn:Hg; [|done].
      intros [= <-]. rewrite ticked_text. by eapply Hw. }
    assert (Game.words_list g0 = Game.words_list g) as <- by done.
    clearbody g0. revert g0 Hb0.
    induction (missed_ids (Game.words g)) as [|wid wids IH]; intros g0 Hb0;
      [done|].
    unfold despawn_all in *. cbn [fold_left].
    destruct (IH (Game._despawn wid g0) (despawn_bank_ok _ _ Hb0)) as [? Hl].
    split; [done|]. by rewrite Hl, despawn_words_list.
  - destruct Hinv as [Hw Hk _].
    destruct (type_char_cases sid ch g)
      as [ | | |p c wid w r Hs Hl Hch Hc Hcw Ho0 Hr0 Hnr w1
          |p c wid w Hs Hl Hch Hc Hcw Ho0 Hr0 w1 p1 p2 p' g'
          |p c wid w Hs Hl Hch Hc Hcw Hbad
          |p c ws w1 Hs Hl Hch Hc Hcw Hscan p'
          |p c Hs Hl Hch Hc Hcw Hscan]; try done.
    + apply current_word_Some in Hcw as (_ & _ & Hg). split; [|done].
      apply bank_ok_players. by eapply bank_ok_set_word.
    + apply current_word_Some in Hcw as (_ & _ & Hg).
      assert (bank_ok g') as Hb'.
      { subst g'. apply despawn_bank_ok. by eapply bank_ok_set_word. }
      split; [by apply bank_ok_players|].
      subst g'. cbn [Game.words_list Game.set_players].
      by rewrite despawn_words_list.
    + apply lock_scan_Some in Hscan as (k0 & w0 & Hg0 & _ & -> & ->); [|done].
      split; [|done]. apply bank_ok_players. by eapply bank_ok_set_word.
Qed.

Lemma steps_bank_ok g0 g :
  rtc step g0 g → reachable g0 → bank_ok g0 →
  bank_ok g ∧ Game.words_list g = Game.words_list g0.
Proof.
  induction 1 as [g0|g0 g1 g Hst _ IH]; intros Hr0 Hb0; [done|].
  destruct (step_bank_ok _ _ (reachable_inv _ Hr0) Hst Hb0) as [Hb1 Hl1].
  destruct IH as [Hb Hl]; [by eapply reach_step|done|].
  split; [done|congruence].
Qed.

(** X19. Every text in play comes from the word bank: in a match, the text
    of every word on screen, every active text and every used text is a
    word of [words_list], and [words_list] is the list the game was built
    with. *)
Theorem texts_from_bank room words_list sid1 u1 sid2 u2 g :
  sid1 ≠ EmptyString → sid2 ≠ EmptyString →
  rtc step (Game.paired room words_list sid1 u1 sid2 u2) g →
  Game.words_list g = words_list
  ∧ (∀ k w, dict_get k (Game.words g) = Some w → Word.text w ∈ words_list)
  ∧ (∀ text, text ∈ Game.active_texts g → text ∈ words_list)
  ∧ (∀ text, text ∈ Game.used_words g → text ∈ words_list).
Proof.
  intros H1 H2 Hs.
  destruct (steps_bank_ok _ _ Hs) as [(Hw & Ha & Hu) Hl].
  - by apply reach_paired.
  - split_and!; [done| |]; intros t Hin; by apply not_elem_of_empty in Hin.
  - cbn [Game.words_list Game.paired Game.set_players Game.new] in Hl.
    rewrite Hl in Hw, Ha, Hu. by split_and!.
Qed.

Lemma texts_from_bank_witness :
  Game.words_list scenario_locked = ["rocket"; "comet"]
  ∧ (∀ k w, dict_get k (Game.words scenario_locked) = Some w →
            Word.text w ∈ ["rocket"; "comet"])
  ∧ (∀ text, text ∈ Game.active_texts scenario_locked →
             text ∈ ["rocket"; "comet"])
  ∧ (∀ text, text ∈ Game.used_words scenario_locked →
             text ∈ ["rocket"; "comet"]).
Proof.
  apply (texts_from_bank "room" _ "P1" "alice" "P2" "bob").
  - discriminate.
  - discriminate.
  - eapply rtc_l; [eapply (step_spawn scenario_draws); reflexivity|].
    eapply rtc_l; [apply (step_type "P1" "r")|]. apply rtc_refl.
Defined.

(** ** The public view of a word *)

(** X20. What [to_public] tells of ownership.  In a match, the view of a
    word on screen never names a claimer; it names a typing player exactly
    when the word is locked, and then gives the colour of that player.
    The view of the word a [completed] keystroke returns names the
    completing player as claimer and as typing player, with their
    colour. *)
Theorem public_view_of_owner g :
  reachable g →
  (∀ k w, dict_get k (Game.words g) = Some w →
     let v := Word.to_public w (Game.players g) in
     Word.claimed_by v = None
     ∧ Word.typing_player v = Word.owner_sid w
     ∧ (Word.status w = falling →
        Word.typing_player v = None ∧ Word.player_color v = None)
     ∧ (Word.status w = locked →
        ∃ sid p, Word.typing_player v = Some sid
                 ∧ Game.players g !! sid = Some p
                 ∧ Word.player_color v = Some (Player.color p)
                 ∧ Word.locked_by_color v = Some (Player.color p)))
  ∧ (∀ sid ch w s,
       (Game.type_char sid ch g).2 = Completed w s →
       let v := Word.to_public w (Game.players (Game.type_char sid ch g).1) in
       s = sid
       ∧ Word.claimed_by v = Some sid ∧ Word.typing_player v = Some sid
       ∧ ∃ p, Game.players (Game.type_char sid ch g).1 !! sid = Some p
              ∧ Word.player_color v = Some (Player.color p)).
Proof.
  intros Hr. pose proof (reachable_inv _ Hr) as [Hw Hk Hp]. split.
  - intros k w Hg v. subst v. destruct (Hw _ _ Hg) as (_ & _ & _ & Hst).
    unfold Word.to_public. cbn [Word.claimed_by Word.typing_player
      Word.player_color Word.locked_by_color].
    destruct (Word.status w); try done.
    + destruct Hst as [-> _]. by split_and!.
    + destruct Hst as (sid & p & -> & Hsid & Hps & _).
      split_and!; try done. intros _. exists sid, p.
      rewrite bool_decide_eq_false_2, Hps by done. by split_and!.
  - intros sid ch w s.
    destruct (type_char_cases sid ch g)
      as [ | | | |p c wid w0 Hs Hl Hch Hc Hcw Ho0 Hr0 w1 p1 p2 p' g'| | | ];
      try done.
    intros [= <- <-] v. subst v. destruct (Hp _ _ Hs) as [Hsid _].
    unfold Word.to_public. cbn [Word.claimed_by Word.typing_player
      Word.player_color Word.locked_by_color].
    subst w1. cbn [Word.status Word.owner_sid Word.set_status Game.advance_word
      Word.set_remaining Word.set_typed]. rewrite Ho0.
    rewrite bool_decide_eq_false_2 by done.
    cbn [Game.players Game.set_players]. rewrite lookup_insert_eq.
    split_and!; try done. by eexists.
Qed.

Lemma public_view_of_owner_witness :
  Word.claimed_by
    (Word.to_public
       (Word.mk "w_1000_7" "rocket" 100 (-40)
                (WORD_SPEED_BASE + 0.5 * WORD_SPEED_RAND)%float
                locked (Some "P1") "r" "ocket")
       (Game.players scenario_locked)) = None.
Proof.
  destruct (public_view_of_owner scenario_locked scenario_locked_reachable)
    as [Hview _].
  destruct (Hview "w_1000_7"
              (Word.mk "w_1000_7" "rocket" 100 (-40)
                       (WORD_SPEED_BASE + 0.5 * WORD_SPEED_RAND)%float
                       locked (Some "P1") "r" "ocket") eq_refl) as [Hc _].
  exact Hc.
Defined.

(** ** The word bank *)

Lemma lower_ascii_idemp c : lower_ascii (lower_ascii c) = lower_ascii c.
Proof. destruct c as [[] [] [] [] [] [] [] []]; reflexivity. Qed.

Lemma lower_idemp s : lower (lower s) = lower s.
Proof.
  induction s as [|c s IH]; simpl; [done|]. by rewrite lower_ascii_idemp, IH.
Qed.

Lemma clean_words_spec ws :
  ∀ seen clean,
    (∀ w, w ∈ seen ↔ w ∈ clean) → NoDup clean →
    NoDup (clean_words ws seen clean)
    ∧ ∀ w, w ∈ clean_words ws seen clean ↔
           w ∈ clean
           ∨ ∃ w0, w0 ∈ ws ∧ w = lower (strip w0) ∧ isalpha w = true.
Proof.
  induction ws as [|w0 ws IH]; intros seen clean Hseen Hnd; cbn [clean_words].
  - split; [done|]. intros w. split; [auto|].
    intros [?|(w1 & Hin & _)]; [done|]. by apply elem_of_nil in Hin.
  - assert (∀ w (P : string → Prop),
              (w ∈ clean ∨ ∃ w1, w1 ∈ ws ∧ P w1) →
              w ∈ clean ∨ ∃ w1, w1 ∈ w0 :: ws ∧ P w1) as Hweak.
    { intros w P [?|(w1 & Hin & HP)]; [by left|right].
      exists w1. split; [by apply list_elem_of_further|done]. }
    destruct (bool_decide (lower (strip w0) = EmptyString)
              || negb (isalpha (lower (strip w0)))) eqn:Hbad.
    { destruct (IH seen clean Hseen Hnd) as [Hnd' Hiff]. split; [done|].
      intros w. rewrite Hiff. split; [apply Hweak|].
      intros [?|(w1 & Hin & -> & Ha)]; [by left|].
      apply elem_of_cons in Hin as [->|Hin]; [|right; eauto].
      apply orb_true_iff in Hbad as [Hb|Hb].
      - apply bool_decide_eq_true in Hb. rewrite Hb in Ha. done.
      - rewrite Ha in Hb. done. }
    apply orb_false_iff in Hbad as [_ Halpha]. apply negb_false_iff in Halpha.
    case_bool_decide as Hs.
    { destruct (IH seen clean Hseen Hnd) as [Hnd' Hiff]. split; [done|].
      intros w. rewrite Hiff. split; [apply Hweak|].
      intros [?|(w1 & Hin & -> & Ha)]; [by left|].
      apply elem_of_cons in Hin as [->|Hin]; [|right; eauto].
      left. by apply Hseen. }
    destruct (IH ({[lower (strip w0)]} ∪ seen) (clean ++ [lower (strip w0)])%list)
      as [Hnd' Hiff].
    { intros w. rewrite elem_of_union, elem_of_singleton, elem_of_app,
        list_elem_of_singleton, Hseen. tauto. }
    { apply NoDup_app. split_and!; [done| |apply NoDup_singleton].
      intros w Hw Hw'. apply list_elem_of_singleton in Hw' as ->.
      apply Hs. by apply Hseen. }
    split; [done|]. intros w. rewrite Hiff, elem_of_app, list_elem_of_singleton.
    split.
    + intros [[?| ->]|(w1 & Hin & Heq & Ha)].
      * by left.
      * right. exists w0. split; [apply list_elem_of_here|done].
      * right. exists w1. split; [by apply list_elem_of_further|done].
    + intros [?|(w1 & Hin & -> & Ha)]; [by left; left|].
      apply elem_of_cons in Hin as [->|Hin]; [by left; right|].
      right. eauto.
Qed.

(** X21. What [load_word_bank] returns: a list without repetition, whose
    words are exactly the alphabetic ones among the stripped and lowercased
    entries of the list that was read, or of the built-in list when nothing
    was read; every word of the result is alphabetic and lowercase. *)
Theorem load_word_bank_result words :
  let source := match words with [] => DEFAULT_WORDS | _ => words end in
  NoDup (load_word_bank words)
  ∧ (∀ w, w ∈ load_word_bank words ↔
          ∃ w0, w0 ∈ source ∧ w = lower (strip w0) ∧ isalpha w = true)
  ∧ (∀ w, w ∈ load_word_bank words → isalpha w = true ∧ lower w = w).
Proof.
  intros source. unfold load_word_bank. fold source.
  destruct (clean_words_spec source ∅ []) as [Hnd Hiff].
  - intros w. split; intros Hin; [by apply not_elem_of_empty in Hin|].
    by apply elem_of_nil in Hin.
  - apply NoDup_nil_2.
  - assert (∀ w, w ∈ clean_words source ∅ [] ↔
                 ∃ w0, w0 ∈ source ∧ w = lower (strip w0) ∧ isalpha w = true)
      as Hiff'.
    { intros w. rewrite Hiff. split; [|auto].
      intros [Hin|?]; [by apply elem_of_nil in Hin|done]. }
    split_and!; [done..|].
    intros w Hin. apply Hiff' in Hin as (w0 & _ & -> & Ha).
    split; [done|apply lower_idemp].
Qed.

(** * The queue of players *)

Lemma pair_loop_short wb clock i waiting sids rooms games :
  (length waiting ≤ 1)%nat →
  Lobby.pair_loop wb clock i waiting sids rooms games
  = Lobby.mk waiting sids rooms games.
Proof. destruct waiting as [|[s1 u1] [|[s2 u2] l]]; simpl; [done..|lia]. Qed.

Lemma lobby_inv wb q :
  lobby_reachable wb q →
  (length (Lobby.WAITING q) ≤ 1)%nat
  ∧ ∀ sid, sid ∈ Lobby.WAITING_SIDS q ↔ sid ∈ (Lobby.WAITING q).*1.
Proof.
  induction 1 as [|clock username sid q Hq [Hlen Hsids]].
  - split; [simpl; lia|]. intros sid. simpl. split; intros Hin.
    + by apply not_elem_of_empty in Hin.
    + by apply elem_of_nil in Hin.
  - unfold Lobby.on_join. destruct username as [user|]; [|done].
    case_bool_decide; [done|]. case_bool_decide as Hw; [done|].
    unfold Lobby._pair_if_possible. cbn [Lobby.WAITING Lobby.WAITING_SIDS
      Lobby.ROOM_BY_SID Lobby.GAMES].
    destruct (Lobby.WAITING q) as [|[s1 u1] [|[s2 u2] l]] eqn:Hwait.
    + cbn. split; [lia|]. intros sid'.
      rewrite elem_of_union, elem_of_singleton, list_elem_of_singleton.
      rewrite Hsids. split; [intros [?|Hin]|auto]; [done|].
      by apply elem_of_nil in Hin.
    + cbn. split; [lia|]. intros sid'. split; intros Hin.
      * exfalso. apply elem_of_difference in Hin as [Hin Hn2].
        apply elem_of_difference in Hin as [Hin Hn1].
        apply elem_of_union in Hin as [Hin|Hin]; [done|].
        apply Hsids in Hin. cbn in Hin. apply list_elem_of_singleton in Hin.
        apply Hn1. by apply elem_of_singleton.
      * by apply elem_of_nil in Hin.
    + simpl in Hlen. lia.
Qed.

(** X22. The queue at rest: after any joins from the start of the server,
    at most one client is waiting, and [WAITING_SIDS] holds exactly the
    session ids listed in [WAITING]. *)
Theorem queue_at_rest wb q :
  lobby_reachable wb q →
  (length (Lobby.WAITING q) ≤ 1)%nat
  ∧ ∀ sid, sid ∈ Lobby.WAITING_SIDS q ↔ ∃ user, (sid, user) ∈ Lobby.WAITING q.
Proof.
  intros Hq. destruct (lobby_inv _ _ Hq) as [Hlen Hsids]. split; [done|].
  intros sid. rewrite Hsids, list_elem_of_fmap. split.
  - intros ([s u] & -> & Hin). by exists u.
  - intros [u Hin]. by exists (sid, u).
Qed.

Lemma queue_at_rest_witness :
  (length (Lobby.WAITING
             (Lobby.on_join ["rocket"] (fun _ => 1000%Z) (Some "alice") "P1"
                            Lobby.start)) ≤ 1)%nat.
Proof.
  destruct (queue_at_rest ["rocket"]
              (Lobby.on_join ["rocket"] (fun _ => 1000) (Some "alice") "P1"
                             Lobby.start)) as [Hlen _].
  - apply lobby_join, lobby_start.
  - exact Hlen.
Defined.

(** X23. Joining twice is joining once: a join from a client that is
    already waiting leaves the four tables as they are, whatever the user
    name of the session. *)
Theorem join_twice wb clock clock' user user' sid q :
  lobby_reachable wb q → user ≠ EmptyString →
  let q1 := Lobby.on_join wb clock (Some user) sid q in
  (∃ u, (sid, u) ∈ Lobby.WAITING q1) →
  Lobby.on_join wb clock' user' sid q1 = q1.
Proof.
  intros Hq Hu q1 Hwait.
  assert (lobby_reachable wb q1) as Hq1 by by apply lobby_join.
  destruct (lobby_inv _ _ Hq1) as [_ Hsids].
  assert (sid ∈ Lobby.WAITING_SIDS q1) as Hin.
  { apply Hsids. destruct Hwait as [u Hin].
    by apply (list_elem_of_fmap_2 fst _ (sid, u)). }
  unfold Lobby.on_join at 1. destruct user' as [u'|]; [|done].
  case_bool_decide; [done|]. by rewrite bool_decide_eq_true_2.
Qed.

Lemma join_twice_witness :
  Lobby.on_join ["rocket"] (fun _ => 2000) (Some "alice") "P1"
    (Lobby.on_join ["rocket"] (fun _ => 1000) (Some "alice") "P1" Lobby.start)
  = Lobby.on_join ["rocket"] (fun _ => 1000) (Some "alice") "P1" Lobby.start.
Proof.
  apply (join_twice ["rocket"] (fun _ => 1000) (fun _ => 2000) "alice"
           (Some "alice") "P1" Lobby.start).
  - apply lobby_start.
  - discriminate.
  - exists "alice". apply (list_elem_of_here ("P1", "alice") []).
Defined.

(** X24. Two joins make a match, first come first served.  When one
    client is waiting and another, signed in, joins, nobody waits any more,
    [ROOM_BY_SID] sends both to the room named after the clock, and
    [GAMES] holds for that room the game built for the two, the client who
    waited as first player.  The other entries of [ROOM_BY_SID] are
    untouched. *)
Theorem second_join_pairs wb clock sid1 u1 sid2 u2 q :
  lobby_reachable wb q →
  Lobby.WAITING q = [(sid1, u1)] → sid2 ≠ sid1 → u2 ≠ EmptyString →
  let q' := Lobby.on_join wb clock (Some u2) sid2 q in
  let room := ("room_" ++ str_of_int (clock 0%nat))%string in
  Lobby.WAITING q' = [] ∧ Lobby.WAITING_SIDS q' = ∅
  ∧ Lobby.ROOM_BY_SID q' !! sid1 = Some room
  ∧ Lobby.ROOM_BY_SID q' !! sid2 = Some room
  ∧ (∀ sid, sid ≠ sid1 → sid ≠ sid2 →
            Lobby.ROOM_BY_SID q' !! sid = Lobby.ROOM_BY_SID q !! sid)
  ∧ Lobby.GAMES q' !! room = Some (Game.paired room wb sid1 u1 sid2 u2).
Proof.
  intros Hq Hwait Hne Hu q' room. destruct (lobby_inv _ _ Hq) as [_ Hsids].
  assert (sid2 ∉ Lobby.WAITING_SIDS q) as Hnot.
  { rewrite Hsids, Hwait. cbn. by rewrite list_elem_of_singleton. }
  subst q'. unfold Lobby.on_join.
  rewrite bool_decide_eq_false_2, bool_decide_eq_false_2 by done.
  unfold Lobby._pair_if_possible. cbn [Lobby.WAITING Lobby.WAITING_SIDS
    Lobby.ROOM_BY_SID Lobby.GAMES]. rewrite Hwait.
  cbn [app Lobby.pair_loop Lobby.WAITING Lobby.WAITING_SIDS
    Lobby.ROOM_BY_SID Lobby.GAMES]. fold room. split_and!.
  - done.
  - apply set_eq. intros sid. split; intros Hin;
      [|by apply not_elem_of_empty in Hin].
    exfalso. apply elem_of_difference in Hin as [Hin Hn2].
    apply elem_of_difference in Hin as [Hin Hn1].
    apply elem_of_union in Hin as [Hin|Hin]; [done|].
    apply Hsids in Hin. rewrite Hwait in Hin. cbn in Hin.
    apply list_elem_of_singleton in Hin. apply Hn1. by apply elem_of_singleton.
  - rewrite lookup_insert_ne by done. apply lookup_insert_eq.
  - apply lookup_insert_eq.
  - intros sid H1 H2. by rewrite !lookup_insert_ne.
  - apply lookup_insert_eq.
Qed.

Lemma second_join_pairs_witness :
  Lobby.GAMES
    (Lobby.on_join ["rocket"; "comet"] (fun _ => 7) (Some "bob") "P2"
       (Lobby.on_join ["rocket"; "comet"] (fun _ => 1000) (Some "alice") "P1"
                      Lobby.start))
    !! "room_7"
  = Some (Game.paired "room_7" ["rocket"; "comet"] "P1" "alice" "P2" "bob").
Proof.
  destruct (second_join_pairs ["rocket"; "comet"] (fun _ => 7)
              "P1" "alice" "P2" "bob"
              (Lobby.on_join ["rocket"; "comet"] (fun _ => 1000) (Some "alice")
                             "P1" Lobby.start))
    as (_ & _ & _ & _ & _ & Hgame).
  - apply lobby_join, lobby_start.
  - reflexivity.
  - discriminate.
  - discriminate.
  - exact Hgame.
Defined.

(** * Accounts *)

(** X25. An account that was created can sign in: when [api_signup]
    answers ok, [api_signin] with the same user name and password on the
    file it wrote answers ok and sets the session user to the stripped user
    name. *)
Theorem signup_then_signin username password f f' :
  Accounts.api_signup username password f = (Accounts.Ok None, f') →
  Accounts.api_signin username password f'
  = Accounts.Ok (Some (strip username)).
Proof.
  unfold Accounts.api_signup, Accounts.api_signin.
  destruct (_ || _); [done|]. destruct (_ <? _)%nat; [done|].
  destruct (default ∅ f !! strip username) eqn:Hl; [done|].
  intros [= <-]. by rewrite lookup_insert_eq, bool_decide_eq_true_2.
Qed.

Lemma signup_then_signin_witness :
  Accounts.api_signin " alice " "secret1 " (Some {[ "alice" := "secret1" ]})
  = Accounts.Ok (Some (strip " alice ")).
Proof. apply (signup_then_signin " alice " "secret1 " None). reflexivity. Defined.

(** X26. [api_signup] never touches an existing account: whatever it
    answers, every user of [users.json] before is a user after with the
    same password; an error leaves the file as it was, and a user name
    already in the file gets an error. *)
Theorem signup_keeps_accounts username password f :
  let answer := (Accounts.api_signup username password f).1 in
  let f' := (Accounts.api_signup username password f).2 in
  (∀ users user pw,
     f = Some users → users !! user = Some pw →
     ∃ users', f' = Some users' ∧ users' !! user = Some pw)
  ∧ (answer ≠ Accounts.Ok None → f' = f)
  ∧ (∀ users, f = Some users → is_Some (users !! strip username) →
              answer ≠ Accounts.Ok None).
Proof.
  unfold Accounts.api_signup.
  assert (∀ users user pw,
            f = Some users → users !! user = Some pw →
            ∃ users', f = Some users' ∧ users' !! user = Some pw) as Hsame
    by eauto.
  destruct (_ || _); [by split_and!|].
  destruct (_ <? _)%nat; [by split_and!|].
  destruct (default ∅ f !! strip username) as [old|] eqn:Hl; [by split_and!|].
  cbn [fst snd]. split_and!; [|done|].
  - intros users user pw -> Hu. eexists; split; [done|]. cbn in Hl |- *.
    destruct (decide (strip username = user)) as [<-|Hne]; [congruence|].
    by rewrite lookup_insert_ne.
  - intros users -> [x Hx]. cbn in Hl. congruence.
Qed.
